(** * dh_price_counter: deals synchronisation service

    A shallow embedding of the source units that fetch deals from the CRM
    and write them to the local store,

      - [src/services/deals.js]  the remote client [DealsService],
      - [src/services/db.js]     the SQLite wrapper [Db] (schema, the two
                                 insert methods, [getAll], [getByFilter],
                                 [deleteFromTable], [updateTable]),
      - [src/index.js]           the handlers that write to the store, the
                                 listing and [write_backlog],
      - [src/unnamed/part_000]   the logger ([logMessage], [formatDate],
                                 [writeDataToJsonFile]),

    and of the credential vault, whose unit [src/services/crypto.js] is not
    among the sources and is modelled from its specification, followed by
    the properties proved about them.

    Conventions of the embedding.

      - JavaScript scalars are the type [prim]; numbers are the integral
        doubles, carried by [Z], and [NaN] is the absent number ([None] in
        [option Z]).  Non-integral doubles are outside the model.
      - JavaScript objects are association lists of their properties that
        hold scalars, in property-creation order ([Object.keys] order).
      - [try]/[catch] is the sum type [completion]; a promise is the type
        [settled] of its final state.
      - A loop that need not end takes [fuel], the number of iterations it
        may run.
      - SQLite, the JavaScript engine and the [@2bad/bitrix] package are
        outside the repository.  What the code relies on from the first two
        is the class [Host] (the engine's conversion of strings to numbers
        and SQLite's column-affinity conversion of a bound value) and the
        class [Planner] (the order of the rows of a [SELECT] with a [WHERE]
        clause).  The handle of the package is a record of functions; what
        the package's calls resolve to is stated where a property depends
        on it ([Spec.enveloping], [Spec.delivers]).
      - The database file is a finite map from table names to tables; every
        statement sent to it is applied in the order the code issues it.
      - [logMessage] appends to a log file inside a [try]/[catch] of its own
        and returns nothing; the models of the client, the store and the
        handlers leave its calls out, and the logger is modelled on its own,
        over the files of its directories. *)

From Stdlib Require Import ZArith Lia.
From stdpp Require Import base option list strings gmap sorting pretty.

Local Open Scope string_scope.
Local Open Scope list_scope.
Local Open Scope Z_scope.

(** ** JavaScript values *)

Module Js.

Inductive prim : Type :=
  | PUndefined
  | PNull
  | PBool (b : bool)
  | PNum (n : Z)
  | PStr (s : string).

#[global] Instance prim_eq_dec : EqDecision prim.
Proof. solve_decision. Defined.

(** An object with scalar properties, in creation order. *)
Definition object : Type := list (string * prim).

(** [o[k]]: the value of an own property, [undefined] when absent. *)
Fixpoint get (o : object) (k : string) : prim :=
  match o with
  | [] => PUndefined
  | (k', v) :: o' => if decide (k' = k) then v else get o' k
  end.

(** [Object.keys(o)] and [Object.values(o)]. *)
Definition keys (o : object) : list string := o.*1.
Definition values (o : object) : list prim := o.*2.

(** [ToBoolean]: what [!v], [v || w] and [if (v)] test. *)
Definition truthy (v : prim) : bool :=
  match v with
  | PUndefined | PNull => false
  | PBool b => b
  | PNum n => negb (n =? 0)
  | PStr s => negb (String.eqb s "")
  end.

(** [v || w]. *)
Definition or_else (v w : prim) : prim := if truthy v then v else w.

(** What a [throw] carries. *)
Inductive exn : Type :=
  | TypeError
  | Error (message : string)
  | Failure (detail : string).

(** The completion of a statement or call: normal, or abrupt by [throw]. *)
Inductive completion (A : Type) : Type :=
  | Ok (a : A)
  | Throw (e : exn).
Arguments Ok {A} a.
Arguments Throw {A} e.

(** The final state of a promise.  [Pending] is the promise that is never
    settled. *)
Inductive settled (A : Type) : Type :=
  | Resolved (a : A)
  | Rejected (e : exn)
  | Pending.
Arguments Resolved {A} a.
Arguments Rejected {A} e.
Arguments Pending {A}.

End Js.
Import Js.

(** ** What the code takes from its host *)

(** Column affinities of the two schemas ([INTEGER], [TEXT], [FLOAT],
    [DATE]). *)
Inductive affinity : Type := AInteger | AText | AReal | ANumeric.

(** Storage classes of SQLite that the code can bind. *)
Inductive sqlval : Type :=
  | SNull
  | SInt (z : Z)
  | SText (s : string).

#[global] Instance sqlval_eq_dec : EqDecision sqlval.
Proof. solve_decision. Defined.

(** The integers of SQLite are the 64-bit signed ones; a rowid is one of
    them. *)
Definition int64 (z : Z) : bool := (- 2 ^ 63 <=? z) && (z <? 2 ^ 63).

(** [StringToNumber] is ECMAScript's conversion of a string to a number
    ([None] is [NaN]); [cast] is the conversion SQLite applies to a value
    stored in a column of the given affinity.  The laws are those of SQLite's
    documentation: affinity never turns a value into [NULL] or [NULL] into a
    value, and a number that is a 64-bit integer is kept as that integer in
    an [INTEGER] column.  Nothing is said of an integral number outside that
    range, which SQLite keeps as a floating-point value. *)
Class Host : Type := {
  StringToNumber : string -> option Z;
  cast : affinity -> sqlval -> sqlval;
  cast_null : forall a, cast a SNull = SNull;
  cast_not_null : forall a v, v <> SNull -> cast a v <> SNull;
  cast_integer : forall z, int64 z = true -> cast AInteger (SInt z) = SInt z
}.

(** Decimal digits, most significant first. *)
Fixpoint digits_value (acc : Z) (s : string) : option Z :=
  match s with
  | EmptyString => Some acc
  | String c s' =>
      let n := Z.of_N (Ascii.N_of_ascii c) in
      if (48 <=? n) && (n <=? 57) then digits_value (10 * acc + (n - 48)) s'
      else None
  end.

(** A host for closed examples: strings of decimal digits convert to their
    value (the empty string to 0, as in ECMAScript) and any other string to
    [NaN], and values are stored in the storage class they are bound in.  The
    examples convert no string and store integers in [INTEGER] and [FLOAT]
    columns and texts in [TEXT] and [DATE] columns. *)
Definition plain_host : Host.
Proof.
  refine {| StringToNumber := digits_value 0; cast := fun _ v => v |};
    [reflexivity | intros _ v Hv; exact Hv | intros z _; reflexivity].
Defined.

(** ** Conversions and comparisons of the engine *)

Section Engine.
Context `{Host}.

(** [Number(v)] and the [ToNumber] of a comparison; [None] is [NaN]. *)
Definition Number (v : prim) : option Z :=
  match v with
  | PUndefined => None
  | PNull => Some 0
  | PBool b => Some (if b then 1 else 0)
  | PNum n => Some n
  | PStr s => StringToNumber s
  end.

(** [x !== n] for a number [x] and a number literal [n]. *)
Definition strict_ne (x : option Z) (n : Z) : bool :=
  match x with
  | Some m => negb (m =? n)
  | None => true
  end.

(** [v < n] and [n < v] with a number on one side: the other side is
    converted by [ToNumber], and a comparison with [NaN] is false. *)
Definition lt_num (v : prim) (n : Z) : bool :=
  match Number v with
  | Some m => m <? n
  | None => false
  end.

Definition num_lt (n : Z) (v : prim) : bool :=
  match Number v with
  | Some m => n <? m
  | None => false
  end.

End Engine.

(** ** The remote client: [src/services/deals.js] *)

Module DealsService.

(** The value [bx.deals.list] and [bx.call] resolve to, as far as the code
    reads it: [res.result] ([None] when it is not an array) and
    [res.total]. *)
Record page : Type := Page {
  result : option (list object);
  total : prim
}.

(** The handle [Bitrix(link)] of the [@2bad/bitrix] package.  Each call
    either throws (the awaited promise rejects) or returns a payload, [None]
    when the payload is [null] or [undefined].  [deals_list] takes the
    [filter] and the [start] offset of the request.  The payload of
    [deals_get] is given by its own properties that hold scalars: the code
    reads five properties of it and nothing else.  The package is not part
    of the repository: what its calls resolve to is left to the statements,
    which say it where they depend on it ([Spec.enveloping],
    [Spec.delivers]). *)
Record Bitrix : Type := {
  deals_get : prim -> completion (option object);
  deals_list : object -> Z -> completion (option page);
  call_productrows_get : prim -> completion (option page)
}.

Definition pageSize : Z := 50.

(** [new Promise(async (resolve, reject) => { try { resolve(body) } catch
    (error) { logMessage(...); resolve(null) } })]: [reject] is never
    called, [logMessage] catches what it throws, and [null] is [None]. *)
Definition promise_try {A : Type} (body : completion A) : settled (option A) :=
  match body with
  | Ok a => Resolved (Some a)
  | Throw _ => Resolved None
  end.

(** The object literal of [getDealById]. *)
Definition deal_of_remote (deal : object) : object :=
  [("id", get deal "ID");
   ("title", get deal "TITLE");
   ("category_id", get deal "CATEGORY_ID");
   ("price_type", get deal "UF_CRM_1710140074001");
   ("date_create", get deal "DATE_CREATE")].

(** [deal["ID"]] on a [null] or [undefined] payload throws. *)
Definition getDealById_body (bx : Bitrix) (id : prim) : completion object :=
  match deals_get bx id with
  | Throw e => Throw e
  | Ok None => Throw TypeError
  | Ok (Some deal) => Ok (deal_of_remote deal)
  end.

Definition getDealById (bx : Bitrix) (id : prim) : settled (option object) :=
  promise_try (getDealById_body bx id).

(** How the [do ... while] loop of [getDealsByFilter] ends. *)
Inductive loop_end : Type :=
  | Done (allResults : list object)
  | Thrown (e : exn)
  | Running.

Section Pagination.
Context `{Host}.

(** The loop, one iteration per unit of [fuel]; [Running] when the fuel is
    spent before the loop ends.  The first component is the list of [start]
    offsets requested so far, oldest first. *)
Fixpoint list_loop (fuel : nat) (bx : Bitrix) (filter : object)
    (start : Z) (allResults : list object) (requested : list Z)
    : list Z * loop_end :=
  match fuel with
  | O => (requested, Running)
  | S fuel' =>
      let requested' := requested ++ [start] in
      match deals_list bx filter start with
      | Throw e => (requested', Thrown e)
      | Ok None => (requested', Thrown TypeError)
      | Ok (Some res) =>
          let total := total res in
          let start' := start + pageSize in
          match result res with
          | None => (requested', Thrown TypeError)
          | Some items =>
              let allResults' := allResults ++ items in
              if lt_num total pageSize
              then (requested', Done allResults')
              else if num_lt start' total
                   then list_loop fuel' bx filter start' allResults' requested'
                   else (requested', Done allResults')
          end
      end
  end.

Definition settle_loop (e : loop_end) : settled (option (list object)) :=
  match e with
  | Done allResults => Resolved (Some allResults)
  | Thrown _ => Resolved None
  | Running => Pending
  end.

(** [getDealsByFilter(filter)], with the offsets it requested. *)
Definition getDealsByFilter_trace (fuel : nat) (bx : Bitrix) (filter : object)
    : list Z * settled (option (list object)) :=
  let r := list_loop fuel bx filter 0 [] [] in
  (r.1, settle_loop r.2).

Definition getDealsByFilter (fuel : nat) (bx : Bitrix) (filter : object)
    : settled (option (list object)) :=
  (getDealsByFilter_trace fuel bx filter).2.

End Pagination.

(** The object literal of [getDealProductRows]. *)
Definition productrow_of_remote (productrow : object) : object :=
  [("PRODUCT_ID", get productrow "PRODUCT_ID");
   ("PRODUCT_NAME", get productrow "PRODUCT_NAME");
   ("PRICE_BRUTTO", get productrow "PRICE_BRUTTO");
   ("DISCOUNT_SUM", get productrow "DISCOUNT_SUM")].

(** [res.result.map(...)] throws when [res] or [res.result] is not there. *)
Definition getDealProductRows_body (bx : Bitrix) (id : prim)
    : completion (list object) :=
  match call_productrows_get bx id with
  | Throw e => Throw e
  | Ok None => Throw TypeError
  | Ok (Some res) =>
      match result res with
      | None => Throw TypeError
      | Some rows => Ok (productrow_of_remote <$> rows)
      end
  end.

Definition getDealProductRows (bx : Bitrix) (id : prim)
    : settled (option (list object)) :=
  promise_try (getDealProductRows_body bx id).

End DealsService.

(** ** The local store: [src/services/db.js] *)

Module Db.

(** A stored row: its rowid (the value of the [INTEGER PRIMARY KEY] column)
    and the other columns in declared order. *)
Record row : Type := Row {
  rowid : Z;
  cells : list (string * sqlval)
}.

(** A table: the declared columns, the [INTEGER PRIMARY KEY] column, whether
    it is [AUTOINCREMENT], the [UNIQUE] constraints, the rows, and the
    largest rowid ever used (what SQLite keeps in [sqlite_sequence]).
    [FOREIGN KEY] clauses are not recorded: SQLite does not enforce them
    unless the connection turns them on, which the code never does. *)
Record table : Type := Table {
  columns : list (string * affinity);
  primary : string;
  autoincrement : bool;
  unique : list (list string);
  rows : list row;
  sequence : Z
}.

(** The database file. *)
Abbreviation db := (gmap string table).

(** The value of column [c] in row [r], [NULL] when the row has none. *)
Fixpoint cell_of (cs : list (string * sqlval)) (c : string) : sqlval :=
  match cs with
  | [] => SNull
  | (c', v) :: cs' => if decide (c' = c) then v else cell_of cs' c
  end.

Definition cell (t : table) (r : row) (c : string) : sqlval :=
  if decide (c = primary t) then SInt (rowid r) else cell_of (cells r) c.

(** How [sqlite3] binds a JavaScript scalar to a [?] placeholder. *)
Definition bind (v : prim) : sqlval :=
  match v with
  | PUndefined | PNull => SNull
  | PBool b => SInt (if b then 1 else 0)
  | PNum n => SInt n
  | PStr s => SText s
  end.

(** How [sqlite3] hands a stored value back to JavaScript. *)
Definition unbind (v : sqlval) : prim :=
  match v with
  | SNull => PNull
  | SInt z => PNum z
  | SText s => PStr s
  end.

(** The value listed for column [c] in [INSERT INTO t (fields) VALUES
    (vals)]; a column that is not listed gets its default, [NULL]. *)
Fixpoint listed (fields : list string) (vals : list sqlval) (c : string)
    : sqlval :=
  match fields, vals with
  | f :: fields', v :: vals' =>
      if decide (f = c) then v else listed fields' vals' c
  | _, _ => SNull
  end.

(** A statement compiles when it lists at least one column and every listed
    column is a column of the table. *)
Definition prepared (t : table) (fields : list string) : bool :=
  bool_decide (fields <> []) &&
  forallb (fun f => bool_decide (f ∈ (columns t).*1)) fields.

(** The rowid SQLite picks for a row that brings none: one more than the
    largest in the table (1 for an empty table), and for an [AUTOINCREMENT]
    table one more than the largest ever used. *)
Definition largest_rowid (rs : list row) : option Z :=
  foldr (fun r m => Some (match m with Some z => Z.max (rowid r) z
                                      | None => rowid r end)) None rs.

Definition next_rowid (t : table) : Z :=
  let m := default 0 (largest_rowid (rows t)) in
  (if autoincrement t then Z.max (sequence t) m else m) + 1.

(** [r] and [new] collide on the [UNIQUE] constraint [key]: every key column
    is equal in both and none is [NULL] ([NULL]s are distinct from each
    other for a [UNIQUE] constraint). *)
Definition collide_on (t : table) (r new : row) (key : list string) : bool :=
  forallb (fun c => bool_decide (cell t new c <> SNull
                                 ∧ cell t r c = cell t new c)) key.

(** [r] is a row that [OR REPLACE] deletes to make room for [new]. *)
Definition replaced_by (t : table) (new r : row) : bool :=
  bool_decide (rowid r = rowid new) || existsb (collide_on t r new) (unique t).

(** Rows are kept, and read back, in rowid order. *)
Fixpoint insert_row (new : row) (rs : list row) : list row :=
  match rs with
  | [] => [new]
  | r :: rs' =>
      if rowid new <? rowid r then new :: r :: rs'
      else r :: insert_row new rs'
  end.

Section Statements.
Context `{Host}.

(** The row that [INSERT INTO t (fields) VALUES (vals)] builds, or [None]
    when the value for the [INTEGER PRIMARY KEY] is not a 64-bit integer
    (datatype mismatch). *)
Definition new_row (t : table) (fields : list string) (vals : list sqlval)
    : option row :=
  let stored ca := (ca.1, cast ca.2 (listed fields vals ca.1)) in
  let others :=
    stored <$> filter (fun ca => ca.1 <> primary t) (columns t) in
  match cast AInteger (listed fields vals (primary t)) with
  | SNull => Some (Row (next_rowid t) others)
  | SInt z => if int64 z then Some (Row z others) else None
  | SText _ => None
  end.

(** One execution of a prepared [INSERT OR REPLACE]; [None] when the row is
    refused (the callback receives the error, the table is unchanged). *)
Definition insert_or_replace (t : table) (fields : list string)
    (vals : list sqlval) : option table :=
  match new_row t fields vals with
  | None => None
  | Some new =>
      Some {| columns := columns t;
              primary := primary t;
              autoincrement := autoincrement t;
              unique := unique t;
              rows := insert_row new
                        (filter (fun r => replaced_by t new r = false) (rows t));
              sequence := if autoincrement t
                          then Z.max (sequence t) (rowid new)
                          else sequence t |}
  end.

(** A statement whose error is only logged. *)
Definition run (t : table) (fields : list string) (vals : list sqlval)
    : table :=
  default t (insert_or_replace t fields vals).

End Statements.

(** [CREATE TABLE IF NOT EXISTS]. *)
Definition create_if_not_exists (name : string) (t : table) (s : db) : db :=
  match s !! name with
  | Some _ => s
  | None => <[name := t]> s
  end.

Definition deals_schema : table :=
  {| columns := [("id", AInteger); ("title", AText);
                 ("category_id", AInteger); ("price_type", AInteger);
                 ("date_create", ANumeric)];
     primary := "id";
     autoincrement := false;
     unique := [];
     rows := [];
     sequence := 0 |}.

Definition deals_products_schema : table :=
  {| columns := [("id", AInteger); ("deal_id", AInteger);
                 ("product_id", AInteger); ("product_name", AText);
                 ("price", AReal); ("discount", AReal)];
     primary := "id";
     autoincrement := true;
     unique := [["deal_id"; "product_id"]];
     rows := [];
     sequence := 0 |}.

Definition createTables (s : db) : db :=
  create_if_not_exists "deals_products" deals_products_schema
    (create_if_not_exists "deals" deals_schema s).

Section Methods.
Context `{Host}.

(** [fields.map((field) => record[field] || null)], bound. *)
Definition record_values (fields : list string) (record : object)
    : list sqlval :=
  (fun field => bind (or_else (get record field) PNull)) <$> fields.

(** [insertMultipleInTable(tableName, records)]: the database file after
    the call.  An empty table name and an empty list of records are refused
    before anything is sent, and a row that SQLite refuses leaves the table
    as it was; both are logged.  A statement that does not compile writes
    nothing either, but it is not only logged:
    [insertMultipleInTable_ends_the_process] below. *)
Definition insertMultipleInTable (tableName : string) (records : list object)
    (s : db) : db :=
  if decide (tableName = "") then s
  else match records with
       | [] => s
       | first :: _ =>
           let fields := keys first in
           match s !! tableName with
           | None => s
           | Some t =>
               if prepared t fields
               then <[tableName :=
                        foldl (fun t' record =>
                                 run t' fields (record_values fields record))
                              t records]> s
               else s
           end
       end.

(** [db.prepare(query)] is called without a callback.  When the statement
    does not compile (the table is not there, or a field of the first record
    is not one of its columns), [sqlite3] emits the error as an ['error']
    event that nothing listens to, and the Node process ends with it, after
    the code that runs in the same turn (in a handler: after the answer is
    sent). *)
Definition insertMultipleInTable_ends_the_process (tableName : string)
    (records : list object) (s : db) : bool :=
  if decide (tableName = "") then false
  else match records with
       | [] => false
       | first :: _ =>
           match s !! tableName with
           | None => true
           | Some t => negb (prepared t (keys first))
           end
       end.

(** [insertInTable(tableName, insertFields)]: [db.run] is given a callback,
    which logs the error of a statement that does not compile. *)
Definition insertInTable (tableName : string) (insertFields : object)
    (s : db) : db :=
  if decide (tableName = "") then s
  else let fields := keys insertFields in
       let vals := bind <$> values insertFields in
       match s !! tableName with
       | None => s
       | Some t =>
           if prepared t fields
           then <[tableName := run t fields vals]> s
           else s
       end.

End Methods.

(** A row as the object [db.all] returns: one property per column. *)
Definition row_object (t : table) (r : row) : object :=
  (fun ca => (ca.1, unbind (cell t r ca.1))) <$> columns t.

(** [getAll(tableName)]: the awaited rows, or the thrown error. *)
Definition getAll (tableName : string) (s : db) : completion (list object) :=
  if decide (tableName = "") then Throw (Error "Invalid parameters for getAll.")
  else match s !! tableName with
       | None => Throw (Failure "no such table")
       | Some t => Ok (row_object t <$> rows t)
       end.

End Db.

(** ** The orchestrator: [src/index.js] *)

Module Index.
Import DealsService Db.

(** What a handler reads from the request. *)
Record request : Type := {
  query_ID : prim;
  body_ID : prim
}.

(** What a handler reads from its environment: the outcome of
    [decryptText(process.env.BX_LINK, ...)] and the client that
    [new DealsService(link)] connects. *)
Record environment : Type := {
  decryptText : completion string;
  connect : string -> Bitrix
}.

(** The JSON bodies the handlers send. *)
Inductive body : Type :=
  | NoDealIdProvided
  | INTERNAL_SERVER_ERROR
  | DealAdded (deal : object)
  | DealsAdded (deals : list object)
  | ProductRowsAdded (total : nat) (deals : list object).

Record response : Type := Response {
  status : Z;
  json : body
}.

(** A handler answers once, or never when it awaits a promise that is never
    settled. *)
Inductive answer : Type :=
  | Answered (r : response)
  | Unanswered.

(** The [catch] block of every handler. *)
Definition failed : answer := Answered (Response 500 INTERNAL_SERVER_ERROR).

(** The record a handler builds from a product row. *)
Definition product_record (deal : object) (productrow : object) : object :=
  [("deal_id", get deal "id");
   ("product_id", get productrow "PRODUCT_ID");
   ("product_name", get productrow "PRODUCT_NAME");
   ("price", get productrow "PRICE_BRUTTO");
   ("discount", get productrow "DISCOUNT_SUM")].

(** The object the list handler builds from a remote deal. *)
Definition local_deal (deal : object) : object :=
  [("id", get deal "ID");
   ("title", get deal "TITLE");
   ("category_id", get deal "CATEGORY_ID");
   ("price_type", get deal "UF_CRM_1710140074001");
   ("date_create", get deal "DATE_CREATE")].

Definition accepted_filter : object :=
  [("UF_CRM_1710140074001", PNum 616); ("CATEGORY_ID", PNum 68)].

Section Handlers.
Context `{Host}.

(** The guard of [add_deal_handler]: the condition under which it throws. *)
Definition not_eligible (deal : object) : bool :=
  strict_ne (Number (get deal "category_id")) 68
  && strict_ne (Number (get deal "price_type")) 616.

(** [POST add_deal_handler/]: the answer and the database file.  The line
    items go to [deal_products]; where that statement does not compile, the
    answer is sent and the process ends afterwards
    ([Db.insertMultipleInTable_ends_the_process]). *)
Definition add_deal_handler (env : environment) (req : request) (s : db)
    : answer * db :=
  let id := if truthy (query_ID req) then query_ID req else body_ID req in
  if negb (truthy id) then (Answered (Response 400 NoDealIdProvided), s)
  else
    match decryptText env with
    | Throw _ => (failed, s)
    | Ok link =>
        let dealsService := connect env link in
        match getDealById dealsService id with
        | Pending => (Unanswered, s)
        | Rejected _ => (failed, s)
        | Resolved None => (failed, s)
        | Resolved (Some deal) =>
            if not_eligible deal then (failed, s)
            else
              let s1 := insertInTable "deals" deal s in
              match getDealProductRows dealsService (get deal "id") with
              | Pending => (Unanswered, s1)
              | Rejected _ => (failed, s1)
              | Resolved None => (failed, s1)
              | Resolved (Some productrows) =>
                  let records := product_record deal <$> productrows in
                  let s2 := insertMultipleInTable "deal_products" records s1 in
                  (Answered (Response 200 (DealAdded deal)), s2)
              end
        end
    end.

(** [POST get_deals_from_bx_insert_in_db/].  The test [!deals &&
    deals.length <= 0] is on an array, which is truthy, so its branch is
    never taken. *)
Definition get_deals_from_bx_insert_in_db (fuel : nat) (env : environment)
    (s : db) : answer * db :=
  match decryptText env with
  | Throw _ => (failed, s)
  | Ok link =>
      let dealsService := connect env link in
      match getDealsByFilter fuel dealsService accepted_filter with
      | Pending => (Unanswered, s)
      | Rejected _ => (failed, s)
      | Resolved None => (failed, s)
      | Resolved (Some found) =>
          let deals := local_deal <$> found in
          let s1 := insertMultipleInTable "deals" deals s in
          (Answered (Response 200 (DealsAdded deals)), s1)
      end
  end.

(** The [for (const deal of deals)] loop of the product-rows handler:
    [productrows.forEach] throws on [null]. *)
Fixpoint collect_records (dealsService : Bitrix) (deals : list object)
    (records : list object) : option (completion (list object)) :=
  match deals with
  | [] => Some (Ok records)
  | deal :: deals' =>
      match getDealProductRows dealsService (get deal "id") with
      | Pending => None
      | Rejected e => Some (Throw e)
      | Resolved None => Some (Throw TypeError)
      | Resolved (Some productrows) =>
          collect_records dealsService deals'
            (records ++ (product_record deal <$> productrows))
      end
  end.

(** [POST get_deals_product_rows_from_bx_insert_in_db/]. *)
Definition get_deals_product_rows_from_bx_insert_in_db (env : environment)
    (s : db) : answer * db :=
  match decryptText env with
  | Throw _ => (failed, s)
  | Ok link =>
      let dealsService := connect env link in
      match getAll "deals" s with
      | Throw _ => (failed, s)
      | Ok deals =>
          match collect_records dealsService deals [] with
          | None => (Unanswered, s)
          | Some (Throw _) => (failed, s)
          | Some (Ok records) =>
              let s1 := insertMultipleInTable "deals_products" records s in
              (Answered
                 (Response 200 (ProductRowsAdded (length deals) deals)), s1)
          end
      end
  end.

End Handlers.

End Index.

(** ** The credential vault *)

Module Vault.

(** Modelled from the spec: the cipher behind [encryptText] and
    [decryptText] of [src/services/crypto.js], which is not among the source
    files.  Section 4.1 asks for a block cipher, with a key and an IV of the
    lengths the cipher needs, whose decryption under a key inverts its
    encryption under that key.  Byte strings are lists of byte values. *)
Class BlockCipher : Type := {
  block_size : nat;
  key_size : nat;
  encrypt_block : list Z -> list Z -> list Z;
  decrypt_block : list Z -> list Z -> list Z;
  block_size_positive : (0 < block_size)%nat;
  encrypt_block_length : forall k b,
    length k = key_size -> length b = block_size ->
    length (encrypt_block k b) = block_size;
  decrypt_block_length : forall k b,
    length k = key_size -> length b = block_size ->
    length (decrypt_block k b) = block_size;
  decrypt_encrypt_block : forall k b,
    length k = key_size -> length b = block_size ->
    decrypt_block k (encrypt_block k b) = b
}.

Definition xor_bytes (a b : list Z) : list Z := zip_with Z.lxor a b.

Section Cbc.
Context `{BlockCipher}.

(** Modelled from the spec: the padding whose corruption [decryptText]
    reports (section 4.1), as block ciphers in CBC mode use it: [n] bytes of
    value [n] that fill the last block, a whole block when the text ends on
    a block boundary. *)
Definition pad (text : list Z) : list Z :=
  let n := (block_size - length text mod block_size)%nat in
  text ++ replicate n (Z.of_nat n).

(** Modelled from the spec: the check that the padding is not corrupt. *)
Definition unpad (p : list Z) : option (list Z) :=
  match last p with
  | None => None
  | Some b =>
      let n := Z.to_nat b in
      if decide ((1 <= n <= block_size)%nat /\ (n <= length p)%nat
                 /\ drop (length p - n) p = replicate n b)
      then Some (take (length p - n) p)
      else None
  end.

(** Modelled from the spec: the mode that takes both key and IV, which
    section 4.1 names: CBC.  Each block is combined with the ciphertext block
    before it, the first with the IV. *)
Fixpoint cbc_encrypt (blocks : nat) (key previous p : list Z) : list Z :=
  match blocks with
  | O => []
  | S blocks' =>
      let c := encrypt_block key (xor_bytes (take block_size p) previous) in
      c ++ cbc_encrypt blocks' key c (drop block_size p)
  end.

Fixpoint cbc_decrypt (blocks : nat) (key previous c : list Z) : list Z :=
  match blocks with
  | O => []
  | S blocks' =>
      let c1 := take block_size c in
      xor_bytes (decrypt_block key c1) previous
      ++ cbc_decrypt blocks' key c1 (drop block_size c)
  end.

(** Modelled from the spec: [encryptText(text, key, iv)] of
    [src/services/crypto.js]. *)
Definition encryptText (text key iv : list Z) : completion (list Z) :=
  if decide (length key = key_size /\ length iv = block_size)
  then Ok (cbc_encrypt (length (pad text) / block_size) key iv (pad text))
  else Throw (Error "DecryptionError: key or IV length").

(** Modelled from the spec: [decryptText(ciphertext, key, iv)] of
    [src/services/crypto.js]: it fails when the key or IV length is wrong,
    when the ciphertext length is invalid, and when the padding is corrupt
    (section 4.1). *)
Definition decryptText (c key iv : list Z) : completion (list Z) :=
  if decide (length key = key_size /\ length iv = block_size)
  then if decide (c <> [] /\ (length c mod block_size = 0)%nat)
       then match unpad (cbc_decrypt (length c / block_size) key iv c) with
            | Some text => Ok text
            | None => Throw (Error "DecryptionError: padding")
            end
       else Throw (Error "DecryptionError: ciphertext length")
  else Throw (Error "DecryptionError: key or IV length").

End Cbc.

End Vault.

(** ** Vocabulary of the statements *)

Module Spec.
Import DealsService Db Index.

(** The number of page requests for [total] records, and the offsets of
    [count] consecutive requests from page [from]. *)
Definition pages (total : Z) : nat := Z.to_nat (Z.max 1 ((total + 49) / 50)).

Definition offsets (from count : nat) : list Z :=
  (fun k => pageSize * Z.of_nat k) <$> seq from count.

(** What [deals.list] of the package resolves to when the remote holds
    [data] for [filter]: the package follows the pages of the remote itself,
    so one call resolves to every record from [start] on, with the number of
    records the remote holds as [total]. *)
Definition delivers (bx : Bitrix) (filter : object) (data : list object)
    : Prop :=
  forall start : Z,
    0 <= start ->
    deals_list bx filter start
    = Ok (Some (Page (Some (drop (Z.to_nat start) data))
                     (PNum (Z.of_nat (length data))))).

(** What [getDealsByFilter] makes of [data] then: the records from offset 0
    on, then those from offset 50 on, and so on for every request. *)
Definition collected (data : list object) : list object :=
  mjoin ((fun k => drop (k * 50) data)
         <$> seq 0 (pages (Z.of_nat (length data)))).




(** No [total] the remote reports for [filter] is above [bound]. *)
Definition totals_below `{Host} (bx : Bitrix) (filter : object) (bound : Z)
    : Prop :=
  forall start res t,
    deals_list bx filter start = Ok (Some res) ->
    Number (total res) = Some t -> t <= bound.

(** Every answer of the remote for [filter] has an array of records. *)
Definition well_formed (bx : Bitrix) (filter : object) : Prop :=
  forall start, exists items t,
    deals_list bx filter start = Ok (Some (Page (Some items) t)).

(** The deal id a request carries: [req.query["ID"]], else the body's. *)
Definition requested_id (req : request) : prim :=
  if truthy (query_ID req) then query_ID req else body_ID req.

(** A record of [deals] and a record of [deals_products], as the handlers
    build them. *)
Definition deal_record (id title category_id price_type date_create : prim)
    : object :=
  [("id", id); ("title", title); ("category_id", category_id);
   ("price_type", price_type); ("date_create", date_create)].

Definition deal_fields : list string :=
  ["id"; "title"; "category_id"; "price_type"; "date_create"].

Definition line_item (deal_id product_id product_name price discount : prim)
    : object :=
  [("deal_id", deal_id); ("product_id", product_id);
   ("product_name", product_name); ("price", price); ("discount", discount)].


(** The row of [deals] that a deal record with the integer id [z] is stored
    as. *)
Definition deal_row `{Host} (z : Z)
    (title category_id price_type date_create : prim) : row :=
  Row z [("title", cast AText (bind title));
         ("category_id", cast AInteger (bind category_id));
         ("price_type", cast AInteger (bind price_type));
         ("date_create", cast ANumeric (bind date_create))].

(** [t] is declared as [schema] is; the rows are free. *)
Definition same_schema (t schema : table) : Prop :=
  columns t = columns schema /\ primary t = primary schema
  /\ autoincrement t = autoincrement schema /\ unique t = unique schema.

(** [r] is a row of [deals_products] for the given deal and product. *)
Definition keyed (deal_id product_id : sqlval) (r : row) : Prop :=
  cell_of (cells r) "deal_id" = deal_id
  /\ cell_of (cells r) "product_id" = product_id.

#[global] Instance keyed_dec deal_id product_id r :
  Decision (keyed deal_id product_id r).
Proof. unfold keyed. apply _. Defined.






End Spec.

(** ** Remotes, records and stores of the examples *)

Module Examples.
Import DealsService Db Index Spec.

(** [n] remote deals, numbered from 1. *)
Definition numbered (n : nat) : list object :=
  (fun i => [("ID", PNum (Z.of_nat i)); ("TITLE", PStr "deal")]) <$> seq 1 n.

(** The handle of the package on a remote that holds the deals [data] and
    the product rows [productrows] for each of them: [deals.get] resolves to
    the envelope of the answer, which has no scalar property; [deals.list]
    to every record from [start] on; [call] to the product rows under
    [result]. *)
Definition packaged (data productrows : list object) : Bitrix :=
  {| deals_get := fun _ => Ok (Some []);
     deals_list := fun _ start =>
       Ok (Some (Page (Some (drop (Z.to_nat start) data))
                      (PNum (Z.of_nat (length data)))));
     call_productrows_get := fun _ =>
       Ok (Some (Page (Some productrows) PUndefined)) |}.

(** A remote whose [total] says 120 while every page is empty. *)
Definition stalled : Bitrix :=
  {| deals_get := fun _ => Throw (Failure "not found");
     deals_list := fun _ _ => Ok (Some (Page (Some []) (PNum 120)));
     call_productrows_get := fun _ => Throw (Failure "unavailable") |}.

(** A remote whose [total] is always 100 past the offset asked for. *)
Definition growing : Bitrix :=
  {| deals_get := fun _ => Throw (Failure "not found");
     deals_list := fun _ start =>
       Ok (Some (Page (Some []) (PNum (start + 100))));
     call_productrows_get := fun _ => Throw (Failure "unavailable") |}.

(** A remote on which every call fails. *)
Definition unreachable : Bitrix :=
  {| deals_get := fun _ => Throw (Failure "timeout");
     deals_list := fun _ _ => Throw (Failure "timeout");
     call_productrows_get := fun _ => Throw (Failure "timeout") |}.

(** A remote deal in the accepted category whose price type is not the
    accepted one. *)
Definition wrong_price_type : object :=
  [("ID", PNum 7); ("TITLE", PStr "Order 7"); ("CATEGORY_ID", PNum 68);
   ("UF_CRM_1710140074001", PNum 1); ("DATE_CREATE", PStr "2024-05-01")].

(** A remote deal in the accepted category and of the accepted price
    type. *)
Definition eligible : object :=
  [("ID", PNum 7); ("TITLE", PStr "Order 7"); ("CATEGORY_ID", PNum 68);
   ("UF_CRM_1710140074001", PNum 616); ("DATE_CREATE", PStr "2024-05-01")].

Definition one_product : object :=
  [("PRODUCT_ID", PNum 31); ("PRODUCT_NAME", PStr "Chair");
   ("PRICE_BRUTTO", PNum 100); ("DISCOUNT_SUM", PNum 5)].

(** A handle on which every [deals.get] resolves to [deal] itself, not to
    an envelope of it, and every other request to [deal] and one product
    row. *)
Definition crm (deal : object) : Bitrix :=
  {| deals_get := fun _ => Ok (Some deal);
     deals_list := fun _ _ => Ok (Some (Page (Some [deal]) (PNum 1)));
     call_productrows_get := fun _ =>
       Ok (Some (Page (Some [one_product]) PUndefined)) |}.

(** A remote that has product rows for deal 1 and fails for every other. *)
Definition rows_for_deal_1_only : Bitrix :=
  {| deals_get := fun _ => Throw (Failure "timeout");
     deals_list := fun _ _ => Throw (Failure "timeout");
     call_productrows_get := fun id =>
       if decide (id = PNum 1)
       then Ok (Some (Page (Some [one_product]) PUndefined))
       else Throw (Failure "timeout") |}.

Definition with_remote (bx : Bitrix) : environment :=
  {| decryptText := Ok "https://example.bitrix/webhook";
     connect := fun _ => bx |}.

Definition ask (id : Z) : request :=
  {| query_ID := PNum id; body_ID := PUndefined |}.

(** The store after the schema was created and deals 1 and 2 were added. *)
Definition two_deals : db :=
  @insertInTable plain_host "deals"
    (deal_record (PNum 2) (PStr "Order 2") (PNum 68) (PNum 616)
       (PStr "2024-05-02"))
    (@insertInTable plain_host "deals"
       (deal_record (PNum 1) (PStr "Order 1") (PNum 68) (PNum 616)
          (PStr "2024-05-01"))
       (createTables ∅)).

(** A block cipher for closed examples: 16-byte blocks and keys, a block
    encrypted by combining it with the key. *)
Definition xor_cipher : Vault.BlockCipher.
Proof.
  refine {| Vault.block_size := 16;
            Vault.key_size := 16;
            Vault.encrypt_block := fun k b => Vault.xor_bytes b k;
            Vault.decrypt_block := fun k c => Vault.xor_bytes c k |}.
  - lia.
  - intros k b Hk Hb. unfold Vault.xor_bytes. rewrite length_zip_with. lia.
  - intros k b Hk Hb. unfold Vault.xor_bytes. rewrite length_zip_with. lia.
  - intros k b Hk Hb. assert (Hl : length b = length k) by lia. clear Hk Hb.
    unfold Vault.xor_bytes. revert k Hl.
    induction b as [|x b IH]; intros [|y k] Hl; simpl in *; try done.
    rewrite IH by lia. f_equal.
    by rewrite Z.lxor_assoc, Z.lxor_nilpotent, Z.lxor_0_r.
Defined.

(** The bytes of a short secret, two keys and an IV. *)
Definition secret : list Z := [104; 116; 116; 112; 115].
Definition key_a : list Z := Z.of_nat <$> seq 1 16.
Definition key_b : list Z := Z.of_nat <$> seq 17 16.
Definition iv_a : list Z := Z.of_nat <$> seq 101 16.

End Examples.

(** ** Vocabulary of the statements about the pages *)

Module SpecPages.
Import Js DealsService.

(** The records of the page at offset [start], none when the request fails
    or the answer carries no array. *)
Definition page_items (bx : Bitrix) (filter : object) (start : Z)
    : list object :=
  match deals_list bx filter start with
  | Ok (Some (Page (Some items) _)) => items
  | _ => []
  end.
End SpecPages.

(** ** The local store: the queries of [src/services/db.js] *)

Module DbQueries.
Import Db.

(** The declared affinity of column [c].  Column names are taken as they
    are declared; a name that SQLite would resolve by ignoring case, or as
    an alias of the rowid, is outside the model. *)
Fixpoint affinity_of (cols : list (string * affinity)) (c : string)
    : option affinity :=
  match cols with
  | [] => None
  | (c', a) :: cols' => if decide (c' = c) then Some a else affinity_of cols' c
  end.

(** A [WHERE] or [SET] clause compiles when it has at least one term and
    every column it names is a column of the table.  The model follows a
    statement whose keys are declared column names, written as declared, and
    one without a term, which SQLite refuses; what SQLite makes of any other
    key (a name in another case, an alias of the rowid, an expression) is
    outside the model, and the statements about [getByFilter],
    [deleteFromTable] and [updateTable] are about clauses that compile or
    are empty. *)
Definition compiles (t : table) (terms : object) : bool :=
  bool_decide (terms <> []) &&
  forallb (fun c => bool_decide (c ∈ (columns t).*1)) (keys terms).

(** A [SELECT] without [ORDER BY] returns the rows it selects in the order
    in which SQLite's planner visits them: rowid order when it scans the
    table, the order of an index when it answers the [WHERE] clause through
    one (the automatic index of a [UNIQUE] constraint, for one).  The model
    takes that order from the host: [plan t filter rs] is the rows [rs],
    selected from [t] by [filter], in the order they are returned. *)
Class Planner : Type := {
  plan : table -> object -> list row -> list row;
  plan_perm : forall t filter rs, plan t filter rs ≡ₚ rs
}.

(** The planner that visits the rows in rowid order. *)
Definition rowid_order : Planner.
Proof. refine {| plan := fun _ _ rs => rs |}. reflexivity. Defined.

Section Queries.
Context `{Host} `{Planner}.

(** [c = ?] with [v] bound: the value takes the affinity of the column, and
    the comparison is true only for a value that is not [NULL] and equal to
    the column's. *)
Definition term_holds (t : table) (r : row) (c : string) (v : prim) : bool :=
  match affinity_of (columns t) c with
  | None => false
  | Some a =>
      bool_decide (cast a (bind v) <> SNull
                   ∧ cell t r c = cast a (bind v))
  end.

(** [f1 = ? AND f2 = ? ...] for the fields of [filter]. *)
Definition where_holds (t : table) (filter : object) (r : row) : bool :=
  forallb (fun cv => term_holds t r cv.1 cv.2) filter.

(** [getByFilter(tableName, filter)]: the awaited rows, or the thrown
    error. *)
Definition getByFilter (tableName : string) (filter : object) (s : db)
    : completion (list object) :=
  if decide (tableName = "")
  then Throw (Error "Invalid parameters for getByFilter.")
  else match s !! tableName with
       | None => Throw (Failure "no such table")
       | Some t =>
           if compiles t filter
           then Ok (row_object t
                      <$> plan t filter
                            (base.filter
                               (fun r => where_holds t filter r = true)
                               (rows t)))
           else Throw (Failure "statement does not compile")
       end.

(** [deleteFromTable(tableName, filter)]: errors are logged, not thrown. *)
Definition deleteFromTable (tableName : string) (filter : object) (s : db)
    : db :=
  if decide (tableName = "") then s
  else match s !! tableName with
       | None => s
       | Some t =>
           if compiles t filter
           then <[tableName :=
                    {| columns := columns t;
                       primary := primary t;
                       autoincrement := autoincrement t;
                       unique := unique t;
                       rows := base.filter
                                 (fun r => where_holds t filter r = false)
                                 (rows t);
                       sequence := sequence t |}]> s
           else s
       end.

(** The row that [SET f1 = ?, f2 = ? ...] makes of [r]; [None] when the
    value for the [INTEGER PRIMARY KEY] is not a 64-bit integer (datatype
    mismatch). *)
Definition updated_row (t : table) (updateFields : object) (r : row)
    : option row :=
  let fields := keys updateFields in
  let vals := bind <$> values updateFields in
  let set ca :=
    (ca.1, if bool_decide (ca.1 ∈ fields)
           then cast ca.2 (listed fields vals ca.1)
           else cell_of (cells r) ca.1) in
  let others := set <$> filter (fun ca => ca.1 <> primary t) (columns t) in
  if bool_decide (primary t ∈ fields)
  then match cast AInteger (listed fields vals (primary t)) with
       | SInt z => if int64 z then Some (Row z others) else None
       | _ => None
       end
  else Some (Row (rowid r) others).

(** The rows of an [UPDATE], one target after the other.  A target whose new
    version has the rowid of another row, or collides with another row on a
    [UNIQUE] constraint, aborts the statement ([None]). *)
Fixpoint update_each (t : table) (updateFields : object)
    (targets current : list row) : option (list row) :=
  match targets with
  | [] => Some current
  | r :: targets' =>
      match updated_row t updateFields r with
      | None => None
      | Some r' =>
          let others := filter (fun q => rowid q <> rowid r) current in
          if existsb (replaced_by t r') others then None
          else update_each t updateFields targets' (insert_row r' others)
      end
  end.

(** [updateTable(tableName, updateFields, filter)]: an aborted statement
    leaves the table as it was, and its error is logged. *)
Definition updateTable (tableName : string) (updateFields filter : object)
    (s : db) : db :=
  if decide (tableName = "") then s
  else match s !! tableName with
       | None => s
       | Some t =>
           if compiles t updateFields && compiles t filter
           then match update_each t updateFields
                        (base.filter
                           (fun r => where_holds t filter r = true) (rows t))
                        (rows t) with
                | Some rows' =>
                    <[tableName :=
                        {| columns := columns t;
                           primary := primary t;
                           autoincrement := autoincrement t;
                           unique := unique t;
                           rows := rows';
                           sequence := sequence t |}]> s
                | None => s
                end
           else s
       end.

End Queries.

End DbQueries.

(** ** Vocabulary of the statements about the store *)

Module StoreSpec.
Import Db DbQueries.

(** The constraints of a table, for a list of its rows: the rows are in
    strictly increasing rowid order (so no two share a primary key), and no
    two rows collide on a [UNIQUE] constraint. *)
Definition consistent_rows (t : table) (rs : list row) : Prop :=
  StronglySorted (fun a b => rowid a < rowid b) rs
  /\ (forall r q, r ∈ rs -> q ∈ rs -> rowid r <> rowid q ->
        existsb (collide_on t r q) (unique t) = false).

Definition consistent (t : table) : Prop := consistent_rows t (rows t).

Definition all_consistent (s : db) : Prop :=
  forall name t, s !! name = Some t -> consistent t.

(** The object [o] has, in every field of [filter], a value that is not
    [null] and is the filter's value as the column stores it. *)
Definition shows `{Host} (t : table) (filter : object) (o : object) : bool :=
  forallb (fun cv =>
             match affinity_of (columns t) cv.1 with
             | None => false
             | Some a =>
                 bool_decide (cast a (bind cv.2) <> SNull
                              ∧ get o cv.1 = unbind (cast a (bind cv.2)))
             end) filter.

(** [v] is [null] or [undefined]. *)
Definition nullish (v : prim) : Prop := v = PNull \/ v = PUndefined.

(** The row [r'] is [r] with the fields of [updateFields] set: it has the
    rowid of [r]; a column that [updateFields] names holds the value bound
    for it, as the column stores it; every other column holds what it held
    in [r]. *)
Definition sets `{Host} (t : table) (updateFields : object) (r r' : row)
    : Prop :=
  rowid r' = rowid r
  /\ forall c a,
       affinity_of (columns t) c = Some a -> c <> primary t ->
       cell_of (cells r') c
       = if bool_decide (c ∈ keys updateFields)
         then cast a (bind (get updateFields c))
         else cell_of (cells r) c.

End StoreSpec.

(** ** The logger: [src/unnamed/part_000] *)

Module Logger.

(** What the code reads of a [Date]: the integers its getters return
    ([getMonth] counts from 0). *)
Record Date : Type := {
  getFullYear : Z;
  getMonth : Z;
  getDate : Z;
  getHours : Z;
  getMinutes : Z
}.

(** [String(n)] and [`${n}`] for an integer: its decimal digits, after a
    minus sign when it is negative. *)
Definition String_of (n : Z) : string := pretty n.

Fixpoint zeros (n : nat) : string :=
  match n with
  | O => ""
  | S n' => "0" +:+ zeros n'
  end.

(** [s.padStart(targetLength, '0')]. *)
Definition padStart (s : string) (targetLength : nat) : string :=
  zeros (targetLength - String.length s) +:+ s.

(** [formatDate(date)]: [YYYY-MM-DD], the year as it is. *)
Definition formatDate (date : Date) : string :=
  let year := getFullYear date in
  let month := padStart (String_of (getMonth date + 1)) 2 in
  let day := padStart (String_of (getDate date)) 2 in
  String_of year +:+ "-" +:+ month +:+ "-" +:+ day.

(** The directory under [logger/logs] that [logMessage] writes to, and the
    name of the file. *)
Definition log_directory (type : string) : string :=
  if decide (type = "error") then "error"
  else if decide (type = "info") then "info" else "access".

Definition log_file_name (type : string) (now : Date) : string :=
  type +:+ "_" +:+ formatDate now +:+ ".log".

Definition newline : string := String (Ascii.ascii_of_nat 10) EmptyString.

(** The entry [logMessage] writes; [detail] is the text of
    [messageOrError?.stack || messageOrError], and [currentTime] that of
    [new Date().toLocaleString()]. *)
Definition formattedMessage (type currentTime source detail : string)
    : string :=
  let label :=
    if decide (type = "error") then "Error: "
    else if decide (type = "info") then "Info: " else "Message: " in
  currentTime +:+ " - Source: " +:+ source +:+ newline +:+ label +:+ detail
  +:+ newline +:+ newline.

(** The files under [logger/logs], by directory and name. *)
Abbreviation logs := (gmap (string * string) string).

(** [logMessage(type, source, messageOrError)]: [fs.appendFile] adds the
    entry to the end of the file, which it creates when it is not there.
    [now] is the second [new Date()] of the body; the result is the
    directory once the append has completed. *)
Definition logMessage (type source detail currentTime : string) (now : Date)
    (files : logs) : logs :=
  let path := (log_directory type, log_file_name type now) in
  <[path := default "" (files !! path)
            +:+ formattedMessage type currentTime source detail]> files.

(** The name of the file [writeDataToJsonFile] writes:
    [dd_mm_yyyy_hh_mm.json]. *)
Definition backlog_file_name (now : Date) : string :=
  let day := padStart (String_of (getDate now)) 2 in
  let month := padStart (String_of (getMonth now + 1)) 2 in
  let year := getFullYear now in
  let hours := padStart (String_of (getHours now)) 2 in
  let minutes := padStart (String_of (getMinutes now)) 2 in
  day +:+ "_" +:+ month +:+ "_" +:+ String_of year +:+ "_" +:+ hours
  +:+ "_" +:+ minutes +:+ ".json".

(** The files under [logger/backlogs], by name. *)
Abbreviation backlogs := (gmap string string).

(** [writeDataToJsonFile(data)], for data that [JSON.stringify] turns into
    the text [json]: [fs.writeFile] replaces the file.  The result is the
    directory once the write has completed. *)
Definition writeDataToJsonFile (now : Date) (json : string)
    (files : backlogs) : backlogs :=
  <[backlog_file_name now := json]> files.

End Logger.

(** ** The handlers of [src/index.js] that read *)

Module IndexReads.
Import Db Index Logger.

(** An element of [data] in the answer of [get_deals_with_productrows]. *)
Record entry : Type := Entry {
  deal_id : prim;
  date_create : prim;
  deal_title : prim;
  productrows : list object
}.

(** The answer: 200 with [data], or the answer of the [catch] block. *)
Inductive listing : Type :=
  | Listed (status : Z) (data : list entry)
  | NotListed (a : answer).

(** [a === b] on scalars. *)
Definition strict_eq (a b : prim) : bool := bool_decide (a = b).

(** The object built from a row [dp] of [deals_products]. *)
Definition productrow_of (dp : object) : object :=
  [("product_id", get dp "product_id");
   ("product_name", get dp "product_name");
   ("price", get dp "price");
   ("discount", get dp "discount")].

(** The body of [deals.forEach]. *)
Definition entry_of (deals_products : list object) (deal : object) : entry :=
  {| deal_id := get deal "id";
     date_create := get deal "date_create";
     deal_title := get deal "title";
     productrows :=
       productrow_of
         <$> base.filter
               (fun dp => strict_eq (get dp "deal_id") (get deal "id") = true)
               deals_products |}.

(** [POST get_deals_with_productrows/]. *)
Definition get_deals_with_productrows (s : db) : listing :=
  match getAll "deals" s with
  | Throw _ => NotListed failed
  | Ok deals =>
      match getAll "deals_products" s with
      | Throw _ => NotListed failed
      | Ok deals_products =>
          Listed 200 (entry_of deals_products <$> deals)
      end
  end.

(** [POST write_backlog/] for a body whose [data] is the text [json] once
    stringified: the handler writes the file and sends nothing. *)
Definition write_backlog (now : Date) (json : string) (files : backlogs)
    : answer * backlogs :=
  (Unanswered, writeDataToJsonFile now json files).

End IndexReads.

(** ** Vocabulary of the statements about the logger *)

Module ClockSpec.
Import Logger.

(** The ranges of the getters of a valid [Date]. *)
Definition calendar (d : Date) : Prop :=
  0 <= getMonth d <= 11 /\ 1 <= getDate d <= 31
  /\ 0 <= getHours d <= 23 /\ 0 <= getMinutes d <= 59.

Definition same_day (d d' : Date) : Prop :=
  getFullYear d = getFullYear d' /\ getMonth d = getMonth d'
  /\ getDate d = getDate d'.

Definition same_minute (d d' : Date) : Prop :=
  same_day d d' /\ getHours d = getHours d' /\ getMinutes d = getMinutes d'.

End ClockSpec.

(** ** Vocabulary of the statements about the listing *)

Module ListingSpec.
Import Js Db IndexReads.

(** What the listing shows of a row of [deals_products]. *)
Definition product_of (p : row) : object :=
  [("product_id", unbind (cell_of (cells p) "product_id"));
   ("product_name", unbind (cell_of (cells p) "product_name"));
   ("price", unbind (cell_of (cells p) "price"));
   ("discount", unbind (cell_of (cells p) "discount"))].

(** The rows of [deals_products] whose [deal_id] is the integer [z], as
    the listing shows them. *)
Definition products_of_deal (tp : table) (z : Z) : list object :=
  product_of
    <$> filter (fun p => cell_of (cells p) "deal_id" = SInt z) (rows tp).

(** The entry of a row of [deals]. *)
Definition entry_of_row (tp : table) (d : row) : entry :=
  {| deal_id := PNum (rowid d);
     date_create := unbind (cell_of (cells d) "date_create");
     deal_title := unbind (cell_of (cells d) "title");
     productrows := products_of_deal tp (rowid d) |}.

End ListingSpec.

(** ** More data for closed statements *)

Module Samples.
Import Js Db Index Spec Examples Logger.

(** The store [two_deals] with two product rows for deal 1 and one for a
    deal 5 that is not stored. *)
Definition stocked : db :=
  @insertMultipleInTable plain_host "deals_products"
    [line_item (PNum 1) (PNum 31) (PStr "Chair") (PNum 100) (PNum 5);
     line_item (PNum 1) (PNum 32) (PStr "Table") (PNum 250) (PNum 10);
     line_item (PNum 5) (PNum 31) (PStr "Chair") (PNum 100) (PNum 5)]
    two_deals.

(** The table that [s] holds under [name], the empty [deals] table when it
    holds none. *)
Definition table_of (name : string) (s : db) : table :=
  default deals_schema (s !! name).

(** 1 May 2024, 12:30, and one minute later. *)
Definition half_past_twelve : Date :=
  {| getFullYear := 2024; getMonth := 4; getDate := 1;
     getHours := 12; getMinutes := 30 |}.

Definition a_minute_later : Date :=
  {| getFullYear := 2024; getMonth := 4; getDate := 1;
     getHours := 12; getMinutes := 31 |}.

End Samples.

(** * Properties *)

(** ** The remote client *)

Module DealsServiceFacts.
Import DealsService Index Spec Examples.

Section Client.
Context `{Host}.

Lemma promise_try_resolved {A : Type} (body : completion A) :
  exists v, promise_try body = Resolved v.
Proof. destruct body; simpl; eauto. Qed.

Lemma settle_loop_not_rejected (r : loop_end) (e : exn) :
  settle_loop r <> Rejected e.
Proof. destruct r; discriminate. Qed.

(** A request that throws ends the loop by that throw. *)
Lemma list_loop_throw fuel bx filter e s :
  forall start acc requested,
    deals_list bx filter s = Throw e ->
    s ∈ (list_loop fuel bx filter start acc requested).1 ->
    s ∈ requested
    \/ exists e', (list_loop fuel bx filter start acc requested).2 = Thrown e'.
Proof.
  induction fuel as [|fuel IH]; intros start acc requested Hs Hin; simpl in *.
  - by left.
  - destruct (deals_list bx filter start) as [[res|]|e0] eqn:Hreq; simpl in *;
      try (right; eauto; fail).
    destruct (result res) as [items|]; simpl in *; try (right; eauto; fail).
    assert (Hne : s <> start) by (intros ->; congruence).
    assert (Hold : s ∈ requested ++ [start] -> s ∈ requested).
    { rewrite elem_of_app, list_elem_of_singleton. tauto. }
    destruct (lt_num (total res) pageSize); simpl in *; [by left; auto|].
    destruct (num_lt (start + pageSize) (total res)); simpl in *;
      [|by left; auto].
    destruct (IH _ _ _ Hs Hin) as [Hreq'|Hthrown]; [left; auto | by right].
Qed.

(** C6.  None of [getDealById], [getDealsByFilter], [getDealProductRows]
    ever rejects: the first and the third always resolve, the second
    resolves or is still running; and when a request to the remote throws,
    the operation resolves to [null]. *)
Theorem client_operations_never_reject (bx : Bitrix) (id : prim)
    (filter : object) (fuel : nat) :
  (exists v, getDealById bx id = Resolved v)
  /\ (exists v, getDealProductRows bx id = Resolved v)
  /\ (forall e, getDealsByFilter fuel bx filter <> Rejected e)
  /\ (forall e, deals_get bx id = Throw e -> getDealById bx id = Resolved None)
  /\ (forall e, call_productrows_get bx id = Throw e ->
        getDealProductRows bx id = Resolved None)
  /\ (forall e start,
        start ∈ (getDealsByFilter_trace fuel bx filter).1 ->
        deals_list bx filter start = Throw e ->
        getDealsByFilter fuel bx filter = Resolved None).
Proof.
  repeat split.
  - apply promise_try_resolved.
  - apply promise_try_resolved.
  - intros e. apply settle_loop_not_rejected.
  - intros e He. unfold getDealById, getDealById_body. by rewrite He.
  - intros e He. unfold getDealProductRows, getDealProductRows_body.
    by rewrite He.
  - intros e start Hin He. unfold getDealsByFilter. simpl in *.
    destruct (list_loop_throw fuel bx filter e start 0 [] [] He Hin)
      as [Hnil|[e' He']].
    + by apply elem_of_nil in Hnil.
    + by rewrite He'.
Qed.

(** The loop from page [k] on, against the package's [deals.list] on a
    remote that holds [data]: it asks for the [n] pages that are left, and
    every request adds all the records from its offset on. *)
Lemma list_loop_delivers bx filter data :
  delivers bx filter data ->
  forall (n k fuel : nat) acc requested,
    (k + n = pages (Z.of_nat (length data)))%nat -> (0 < n)%nat ->
    (n <= fuel)%nat ->
    list_loop fuel bx filter (pageSize * Z.of_nat k) acc requested
    = (requested ++ offsets k n,
       Done (acc ++ mjoin ((fun j => drop (j * 50) data) <$> seq k n))).
Proof.
  intros Hdelivers. unfold pages, pageSize in *.
  induction n as [|n IH]; intros k fuel acc requested Hk Hn Hfuel; [lia|].
  destruct fuel as [|fuel]; [lia|]. cbn [list_loop].
  rewrite Hdelivers by lia. cbn [result total].
  replace (Z.to_nat (50 * Z.of_nat k)) with (k * 50)%nat by lia.
  unfold lt_num, num_lt, pageSize. cbn [Number].
  set (T := Z.of_nat (length data)) in *.
  assert (HT : 0 <= T) by lia.
  assert (Hdiv : 50 * ((T + 49) / 50) <= T + 49 < 50 * ((T + 49) / 50) + 50).
  { pose proof (Z.div_mod (T + 49) 50 ltac:(lia)).
    pose proof (Z.mod_pos_bound (T + 49) 50 ltac:(lia)). lia. }
  destruct (T <? 50) eqn:Hlt.
  - apply Z.ltb_lt in Hlt.
    assert (n = 0%nat /\ k = 0%nat) as [-> ->] by lia.
    cbn. by rewrite app_nil_r.
  - apply Z.ltb_ge in Hlt.
    destruct (50 * Z.of_nat k + 50 <? T) eqn:Hmore.
    + apply Z.ltb_lt in Hmore.
      replace (50 * Z.of_nat k + 50) with (50 * Z.of_nat (S k)) by lia.
      rewrite (IH (S k) fuel) by lia.
      unfold offsets. cbn [seq fmap list_fmap mjoin list_join].
      by rewrite <- !app_assoc.
    + apply Z.ltb_ge in Hmore.
      assert (n = 0%nat) as -> by lia.
      cbn. by rewrite app_nil_r.
Qed.

(** Up to 50 records need one request, and what is collected is the
    records; past 50 there are at least two requests. *)
Lemma pages_one (n : nat) : (n <= 50)%nat -> pages (Z.of_nat n) = 1%nat.
Proof.
  intros Hn. unfold pages.
  pose proof (Z.div_mod (Z.of_nat n + 49) 50 ltac:(lia)).
  pose proof (Z.mod_pos_bound (Z.of_nat n + 49) 50 ltac:(lia)). lia.
Qed.

Lemma pages_more (n : nat) :
  (50 < n)%nat -> exists m, pages (Z.of_nat n) = S (S m).
Proof.
  intros Hn. unfold pages.
  exists (Z.to_nat ((Z.of_nat n + 49) / 50) - 2)%nat.
  pose proof (Z.div_mod (Z.of_nat n + 49) 50 ltac:(lia)).
  pose proof (Z.mod_pos_bound (Z.of_nat n + 49) 50 ltac:(lia)). lia.
Qed.

Lemma collected_one_page (data : list object) :
  (length data <= 50)%nat -> collected data = data.
Proof.
  intros Hn. unfold collected. rewrite pages_one by done.
  cbn. by rewrite app_nil_r.
Qed.

Lemma collected_repeats (data : list object) :
  (50 < length data)%nat -> (length data < length (collected data))%nat.
Proof.
  intros Hn. unfold collected. destruct (pages_more _ Hn) as [m ->].
  cbn [seq fmap list_fmap mjoin list_join].
  rewrite !length_app, !length_drop. lia.
Qed.

(** C2.  Against the package's [deals.list] on a remote that holds [data],
    [getDealsByFilter] asks for the offsets 0, 50, 100, ... and resolves to
    the records from offset 0 on, followed by those from offset 50 on, and
    so on: to [data] itself up to 50 records, and to more records than the
    remote holds past that, 210 for 120. *)
Theorem getDealsByFilter_repeats_the_records_past_a_page (bx : Bitrix)
    (filter : object) (data : list object) (fuel : nat) :
  delivers bx filter data ->
  (pages (Z.of_nat (length data)) <= fuel)%nat ->
  getDealsByFilter_trace fuel bx filter
  = (offsets 0 (pages (Z.of_nat (length data))),
     Resolved (Some (collected data)))
  /\ ((length data <= 50)%nat -> collected data = data)
  /\ ((50 < length data)%nat ->
      (length data < length (collected data))%nat)
  /\ (length data = 120%nat ->
      offsets 0 (pages (Z.of_nat (length data))) = [0; 50; 100]
      /\ length (collected data) = 210%nat).
Proof.
  intros Hdelivers Hfuel. split; [|split; [|split]].
  - unfold getDealsByFilter_trace.
    pose proof (list_loop_delivers bx filter data Hdelivers
                  (pages (Z.of_nat (length data))) 0 fuel [] []) as Hloop.
    change (pageSize * Z.of_nat 0) with 0 in Hloop.
    rewrite Hloop; [reflexivity|lia| |lia].
    unfold pages. lia.
  - apply collected_one_page.
  - apply collected_repeats.
  - intros Hlength. unfold collected. rewrite Hlength.
    change (pages (Z.of_nat 120)) with 3%nat. split; [reflexivity|].
    cbn [seq fmap list_fmap mjoin list_join].
    rewrite !length_app, !length_drop, Hlength. reflexivity.
Qed.

(** With [fuel] iterations left and every [total] at most [bound], the loop
    ends once [start] is within [50 * fuel] of [bound]. *)
Lemma list_loop_ends bx filter bound :
  totals_below bx filter bound ->
  forall fuel start acc requested,
    bound - start < pageSize * Z.of_nat (S fuel) ->
    (list_loop (S fuel) bx filter start acc requested).2 <> Running.
Proof.
  intros Hbound. unfold pageSize.
  induction fuel as [|fuel IH]; intros start acc requested Hfuel;
    cbn [list_loop];
    destruct (deals_list bx filter start) as [[res|]|e] eqn:Hreq;
    try discriminate;
    destruct (result res) as [items|]; try discriminate;
    destruct (lt_num (total res) pageSize); try discriminate;
    unfold num_lt;
    destruct (Number (total res)) as [t|] eqn:Ht; try discriminate;
    pose proof (Hbound _ _ _ Hreq Ht);
    unfold pageSize;
    destruct (start + 50 <? t) eqn:Hmore; try discriminate;
    apply Z.ltb_lt in Hmore.
  - lia.
  - apply IH. lia.
Qed.

(** Answers that all carry an array never make the loop throw. *)
Lemma list_loop_well_formed bx filter :
  well_formed bx filter ->
  forall fuel start acc requested,
    (exists all, (list_loop fuel bx filter start acc requested).2 = Done all)
    \/ (list_loop fuel bx filter start acc requested).2 = Running.
Proof.
  intros Hwf. induction fuel as [|fuel IH]; intros start acc requested;
    cbn [list_loop]; [by right|].
  destruct (Hwf start) as (items & t & ->). cbn [result total].
  destruct (lt_num t pageSize); [left; eauto|].
  destruct (num_lt (start + pageSize) t); [apply IH | left; eauto].
Qed.

(** C7, as amended.  When every [total] the remote reports is at most
    [bound], the loop of [getDealsByFilter] ends within [bound / 50 + 1]
    requests; and whatever the totals say about the pages, answers that carry
    an array are accepted: the call resolves to the records collected, not to
    an error. *)
Theorem getDealsByFilter_ends_when_totals_bounded (bx : Bitrix)
    (filter : object) (bound : Z) (fuel : nat) :
  totals_below bx filter bound ->
  0 <= bound < pageSize * Z.of_nat fuel ->
  (exists v, getDealsByFilter fuel bx filter = Resolved v)
  /\ (well_formed bx filter ->
      exists all, getDealsByFilter fuel bx filter = Resolved (Some all)).
Proof.
  intros Hbound Hfuel. unfold pageSize in Hfuel.
  destruct fuel as [|fuel]; [lia|].
  assert (Hends : (list_loop (S fuel) bx filter 0 [] []).2 <> Running).
  { apply (list_loop_ends bx filter bound Hbound). unfold pageSize. lia. }
  pose proof (list_loop_well_formed bx filter) as Hwf.
  unfold getDealsByFilter, getDealsByFilter_trace. cbn [snd].
  destruct (list_loop (S fuel) bx filter 0 [] []).2 as [all|e|] eqn:Hloop;
    [| |done].
  - simpl. eauto.
  - simpl. split; [eauto|]. intros Hok.
    destruct (Hwf Hok (S fuel) 0 [] []) as [[all Hall]|Hrun]; congruence.
Qed.

End Client.

Lemma packaged_delivers (data productrows : list object) (filter : object) :
  delivers (packaged data productrows) filter data.
Proof. intros start _. reflexivity. Qed.


Lemma list_loop_growing fuel :
  forall start acc requested,
    0 <= start ->
    (@list_loop plain_host fuel growing accepted_filter start acc
       requested).2 = Running.
Proof.
  induction fuel as [|fuel IH]; intros start acc requested Hstart;
    [reflexivity|].
  cbn [list_loop growing deals_list result total].
  unfold lt_num, num_lt, pageSize. cbn [Number].
  destruct (start + 100 <? 50) eqn:Hlt; [apply Z.ltb_lt in Hlt; lia|].
  destruct (start + 50 <? start + 100) eqn:Hmore;
    [|apply Z.ltb_ge in Hmore; lia].
  apply IH. lia.
Qed.

Lemma client_operations_never_reject_witness :
  getDealById unreachable (PNum 7) = Resolved None
  /\ getDealProductRows unreachable (PNum 7) = Resolved None
  /\ @getDealsByFilter plain_host 3 unreachable accepted_filter
     = Resolved None.
Proof.
  pose proof (@client_operations_never_reject plain_host unreachable (PNum 7)
                accepted_filter 3) as (_ & _ & _ & Hget & Hrows & Hlist).
  split; [exact (Hget _ eq_refl)|].
  split; [exact (Hrows _ eq_refl)|].
  apply (Hlist (Failure "timeout") 0); [|reflexivity].
  vm_compute. apply list_elem_of_here.
Defined.

(** C2: 120 deals on the remote, three requests, 210 records. *)
Lemma getDealsByFilter_repeats_the_records_past_a_page_witness :
  @getDealsByFilter_trace plain_host 3 (packaged (numbered 120) [])
    accepted_filter
  = ([0; 50; 100], Resolved (Some (collected (numbered 120))))
  /\ length (collected (numbered 120)) = 210%nat.
Proof.
  destruct (@getDealsByFilter_repeats_the_records_past_a_page plain_host
              (packaged (numbered 120) []) accepted_filter (numbered 120) 3
              (packaged_delivers _ _ _))
    as (Htrace & _ & _ & Hcount).
  - vm_compute. lia.
  - split; [exact Htrace|]. apply Hcount. reflexivity.
Defined.

(** C7: a total that misreports the pages raises nothing (three requests,
    no record, a normal result), and totals that stay ahead of the offset
    keep the loop running for ever. *)
Lemma misreported_total_raises_no_violation :
  @getDealsByFilter_trace plain_host 10 stalled accepted_filter
  = ([0; 50; 100], Resolved (Some []))
  /\ (forall fuel,
        @getDealsByFilter plain_host fuel growing accepted_filter = Pending).
Proof.
  split; [reflexivity|].
  intros fuel. unfold getDealsByFilter, getDealsByFilter_trace. cbn [snd].
  by rewrite list_loop_growing.
Qed.

Lemma getDealsByFilter_ends_when_totals_bounded_witness :
  (exists v,
     @getDealsByFilter plain_host 3 stalled accepted_filter = Resolved v)
  /\ (well_formed stalled accepted_filter ->
      exists all,
        @getDealsByFilter plain_host 3 stalled accepted_filter
        = Resolved (Some all)).
Proof.
  apply (@getDealsByFilter_ends_when_totals_bounded plain_host stalled
           accepted_filter 120 3).
  - intros start res t Hres Ht. cbn in Hres. simplify_eq. cbn in Ht.
    simplify_eq. lia.
  - unfold pageSize. lia.
Defined.

End DealsServiceFacts.

(** ** The local store *)

Module DbFacts.
Import Db Spec Examples.

Lemma elem_of_insert_row (new x : row) (rs : list row) :
  x ∈ insert_row new rs <-> x = new \/ x ∈ rs.
Proof.
  induction rs as [|r rs IH]; simpl.
  - rewrite list_elem_of_singleton, elem_of_nil. tauto.
  - destruct (rowid new <? rowid r).
    + by rewrite elem_of_cons.
    + rewrite !elem_of_cons, IH. tauto.
Qed.

Section Store.
Context `{Host}.


(** Among rows none of which satisfies [P], a new row that does is the only
    one after it is put in place. *)
Lemma filter_insert_row_only (P : row -> Prop) `{!forall r, Decision (P r)}
    new rs :
  P new -> Forall (fun r => ~ P r) rs ->
  filter P (insert_row new rs) = [new].
Proof.
  intros Hnew Hrs. induction Hrs as [|r rs Hr Hrs IH]; simpl.
  - rewrite filter_cons. by rewrite decide_True.
  - destruct (rowid new <? rowid r).
    + rewrite !filter_cons, decide_True, decide_False by done.
      f_equal. clear IH. induction Hrs as [|r' rs' Hr' _ IH']; [done|].
      by rewrite filter_cons, decide_False.
    + by rewrite filter_cons, decide_False.
Qed.






(** [insertInTable] of a deal record with an integer id: the row takes the
    place of the row with that id, if there is one. *)
Lemma insertInTable_deal (s : db) rs sq z ti c p dt :
  int64 z = true ->
  s !! "deals" = Some (Table (columns deals_schema) "id" false [] rs sq) ->
  insertInTable "deals" (deal_record (PNum z) ti c p dt) s
  = <["deals" := Table (columns deals_schema) "id" false []
        (insert_row (deal_row z ti c p dt)
           (filter (fun r => bool_decide (rowid r = z) = false) rs)) sq]> s.
Proof.
  intros Hz Hs. unfold insertInTable. rewrite decide_False by done.
  rewrite Hs.
  change (keys (deal_record (PNum z) ti c p dt)) with deal_fields.
  change (prepared _ deal_fields) with true. cbn match.
  f_equal. unfold run, insert_or_replace, new_row.
  cbn [columns primary autoincrement unique rows sequence].
  change (listed deal_fields _ "id") with (SInt z).
  rewrite cast_integer, Hz by done.
  cbn [default from_option rowid]. unfold id.
  do 2 f_equal.
  apply list_filter_iff. intros r. unfold replaced_by.
  cbn [unique existsb rowid]. by rewrite orb_false_r.
Qed.

(** C8.  After deals 1 and 2 are inserted into the fresh [deals] table and
    deal 1 is inserted again with other values, [getAll("deals")] returns
    two rows, and the row with id 1 carries the title (and the other values)
    of the later insert. *)
Theorem reinserted_deal_replaces_its_row
    (t1 c1 p1 d1 t2 c2 p2 d2 t1' c1' p1' d1' : prim) :
  getAll "deals"
    (insertInTable "deals" (deal_record (PNum 1) t1' c1' p1' d1')
       (insertInTable "deals" (deal_record (PNum 2) t2 c2 p2 d2)
          (insertInTable "deals" (deal_record (PNum 1) t1 c1 p1 d1)
             (createTables ∅))))
  = Ok [ [("id", PNum 1);
          ("title", unbind (cast AText (bind t1')));
          ("category_id", unbind (cast AInteger (bind c1')));
          ("price_type", unbind (cast AInteger (bind p1')));
          ("date_create", unbind (cast ANumeric (bind d1')))];
         [("id", PNum 2);
          ("title", unbind (cast AText (bind t2)));
          ("category_id", unbind (cast AInteger (bind c2)));
          ("price_type", unbind (cast AInteger (bind p2)));
          ("date_create", unbind (cast ANumeric (bind d2)))] ].
Proof.
  rewrite (insertInTable_deal (createTables ∅) [] 0) by reflexivity.
  rewrite (insertInTable_deal (<[_ := _]> _) _ 0 2)
    by (reflexivity || (rewrite lookup_insert_eq; reflexivity)).
  rewrite (insertInTable_deal (<[_ := _]> _) _ 0 1)
    by (reflexivity || (rewrite lookup_insert_eq; reflexivity)).
  unfold getAll. rewrite decide_False by done. rewrite lookup_insert_eq.
  reflexivity.
Qed.












(** Writing to one table leaves every other table as it is. *)
Lemma insertInTable_other tableName fields (s : db) name :
  name <> tableName ->
  insertInTable tableName fields s !! name = s !! name.
Proof.
  intros Hne. unfold insertInTable.
  destruct (decide (tableName = "")); [done|].
  destruct (s !! tableName) as [t|]; [|done].
  destruct (prepared t (keys fields)); [|done].
  by rewrite lookup_insert_ne.
Qed.

Lemma insertMultipleInTable_other tableName records (s : db) name :
  name <> tableName ->
  insertMultipleInTable tableName records s !! name = s !! name.
Proof.
  intros Hne. unfold insertMultipleInTable.
  destruct (decide (tableName = "")); [done|].
  destruct records as [|first rest]; [done|].
  destruct (s !! tableName) as [t|]; [|done].
  destruct (prepared t (keys first)); [|done].
  by rewrite lookup_insert_ne.
Qed.

(** A call that ends the process has written nothing. *)
Lemma insertMultipleInTable_ends_the_process_writes_nothing tableName records
    (s : db) :
  insertMultipleInTable_ends_the_process tableName records s = true ->
  insertMultipleInTable tableName records s = s.
Proof.
  unfold insertMultipleInTable_ends_the_process, insertMultipleInTable.
  destruct (decide (tableName = "")); [done|].
  destruct records as [|first rest]; [done|].
  destruct (s !! tableName) as [t|]; [|done].
  by destruct (prepared t (keys first)).
Qed.

(** X2.  [createTables] is [CREATE TABLE IF NOT EXISTS] twice: it keeps
    every table that is there, rows included, and running it again changes
    nothing. *)
Theorem createTables_keeps_and_is_idempotent (s : db) :
  createTables (createTables s) = createTables s
  /\ (forall name t, s !! name = Some t -> createTables s !! name = Some t).
Proof.
  assert (Hkeep : forall name t' (s' : db) name0 t0,
            s' !! name0 = Some t0 ->
            create_if_not_exists name t' s' !! name0 = Some t0).
  { intros name t' s' name0 t0 Hs'. unfold create_if_not_exists.
    destruct (s' !! name) eqn:Hname; [done|].
    rewrite lookup_insert_ne; [done|]. intros ->. congruence. }
  assert (Hthere : forall name t' (s' : db),
            is_Some (create_if_not_exists name t' s' !! name)).
  { intros name t' s'. unfold create_if_not_exists.
    destruct (s' !! name) eqn:Hname; [by rewrite Hname|].
    rewrite lookup_insert_eq. eauto. }
  assert (Hid : forall name t' (s' : db),
            is_Some (s' !! name) -> create_if_not_exists name t' s' = s').
  { intros name t' s' [t0 Ht0]. unfold create_if_not_exists. by rewrite Ht0. }
  split.
  - unfold createTables.
    destruct (Hthere "deals" deals_schema s) as [t1 Ht1].
    rewrite (Hid "deals" deals_schema) by eauto.
    by apply Hid.
  - intros name t Hs. unfold createTables. by do 2 apply Hkeep.
Qed.

End Store.

(** C3: with product id 0 the key is bound as [NULL] by
    [record[field] || null], and the second upsert adds a second row for the
    same deal and product. *)
Lemma upsert_with_product_id_0_duplicates :
  getAll "deals_products"
    (@insertMultipleInTable plain_host "deals_products"
       [line_item (PNum 1) (PNum 0) (PStr "Chair") (PNum 20) (PNum 2)]
       (@insertMultipleInTable plain_host "deals_products"
          [line_item (PNum 1) (PNum 0) (PStr "Chair") (PNum 10) (PNum 1)]
          (createTables ∅)))
  = Ok [ [("id", PNum 1); ("deal_id", PNum 1); ("product_id", PNull);
          ("product_name", PStr "Chair"); ("price", PNum 10);
          ("discount", PNum 1)];
         [("id", PNum 2); ("deal_id", PNum 1); ("product_id", PNull);
          ("product_name", PStr "Chair"); ("price", PNum 20);
          ("discount", PNum 2)] ].
Proof. vm_compute. reflexivity. Qed.



End DbFacts.

(** ** The orchestrator *)

Module IndexFacts.
Import DealsService Db Index Spec Examples DbFacts.

Section Handlers.
Context `{Host}.

Lemma getDealProductRows_settles bx id :
  getDealProductRows bx id = Resolved None
  \/ exists rows, getDealProductRows bx id = Resolved (Some rows).
Proof.
  unfold getDealProductRows. destruct (getDealProductRows_body bx id);
    simpl; eauto.
Qed.

(** The loop over the stored deals throws at the first deal whose product
    rows are [null]. *)
Lemma collect_records_null bx deals deal :
  deal ∈ deals ->
  getDealProductRows bx (get deal "id") = Resolved None ->
  forall records, exists e, collect_records bx deals records = Some (Throw e).
Proof.
  intros Hin Hnull. induction deals as [|d deals IH]; intros records.
  - by apply elem_of_nil in Hin.
  - cbn [collect_records].
    destruct (getDealProductRows_settles bx (get d "id")) as [->|[rows Hrows]];
      [eauto|].
    rewrite Hrows. apply elem_of_cons in Hin as [->|Hin]; [congruence|].
    by apply IH.
Qed.

(** The guard of [add_deal_handler] lets a deal through as soon as one of
    the two values is the accepted one. *)
Lemma not_eligible_both deal :
  not_eligible deal = true
  <-> Number (get deal "category_id") <> Some 68
      /\ Number (get deal "price_type") <> Some 616.
Proof.
  unfold not_eligible, strict_ne. rewrite andb_true_iff.
  destruct (Number (get deal "category_id")) as [c|],
           (Number (get deal "price_type")) as [p|];
    rewrite ?negb_true_iff, ?Z.eqb_neq; split;
    intros [? ?]; split; congruence.
Qed.

(** C5, as amended.  When an operation of the client resolves to [null],
    the handler that awaited it answers 500 with the generic error body.
    The store is left as it was by the list handler when [getDealsByFilter]
    is [null], by the product-rows handler when [getDealProductRows] is
    [null] for any stored deal, and by the single-deal add when
    [getDealById] is [null]; the single-deal add also answers 500 when the
    product rows of the deal it let through are [null]. *)
Theorem null_from_the_client_fails_the_call (env : environment)
    (link : string) (s : db) :
  decryptText env = Ok link ->
  (forall fuel,
     getDealsByFilter fuel (connect env link) accepted_filter = Resolved None ->
     get_deals_from_bx_insert_in_db fuel env s = (failed, s))
  /\ (forall deals deal,
        getAll "deals" s = Ok deals ->
        deal ∈ deals ->
        getDealProductRows (connect env link) (get deal "id") = Resolved None ->
        get_deals_product_rows_from_bx_insert_in_db env s = (failed, s))
  /\ (forall req,
        truthy (requested_id req) = true ->
        getDealById (connect env link) (requested_id req) = Resolved None ->
        add_deal_handler env req s = (failed, s))
  /\ (forall req deal,
        truthy (requested_id req) = true ->
        getDealById (connect env link) (requested_id req)
        = Resolved (Some deal) ->
        not_eligible deal = false ->
        getDealProductRows (connect env link) (get deal "id")
        = Resolved None ->
        (add_deal_handler env req s).1 = failed).
Proof.
  intros Hlink. repeat split.
  - intros fuel Hnull. unfold get_deals_from_bx_insert_in_db.
    by rewrite Hlink, Hnull.
  - intros deals deal Hall Hin Hnull.
    unfold get_deals_product_rows_from_bx_insert_in_db.
    rewrite Hlink, Hall.
    by destruct (collect_records_null _ _ _ Hin Hnull []) as [e ->].
  - intros req Hid Hnull. unfold add_deal_handler. fold (requested_id req).
    by rewrite Hid, Hlink, Hnull.
  - intros req deal Hid Hdeal Helig Hnull. unfold add_deal_handler.
    fold (requested_id req).
    by rewrite Hid, Hlink, Hdeal, Helig, Hnull.
Qed.


(** Whatever the remote answers, [add_deal_handler] leaves
    [deals_products] as it was: the table it names for the line items is
    [deal_products]. *)
Lemma add_deal_handler_deals_products (env : environment) (req : request)
    (s : db) :
  (add_deal_handler env req s).2 !! "deals_products" = s !! "deals_products".
Proof.
  unfold add_deal_handler.
  repeat (case_match; simpl; try done);
    rewrite ?insertMultipleInTable_other, ?insertInTable_other by done;
    done.
Qed.


(** X1.  [add_deal_handler] turns a fetched deal down, with the 500 answer
    and no write, when its category is not 68 and its price type is not 616
    either. *)
Theorem add_deal_handler_rejects_when_both_differ (env : environment)
    (req : request) (s : db) (link : string) (deal : object) :
  truthy (requested_id req) = true ->
  decryptText env = Ok link ->
  getDealById (connect env link) (requested_id req) = Resolved (Some deal) ->
  Number (get deal "category_id") <> Some 68 ->
  Number (get deal "price_type") <> Some 616 ->
  add_deal_handler env req s = (failed, s).
Proof.
  intros Hid Hlink Hdeal Hcategory Hprice.
  unfold add_deal_handler. fold (requested_id req).
  rewrite Hid, Hlink, Hdeal. cbn [negb].
  by rewrite (proj2 (not_eligible_both deal) (conj Hcategory Hprice)).
Qed.

(** X3.  Against the package's [deals.list] on a remote that holds [data]
    for the accepted filter, the list handler answers 200 with the records
    that [getDealsByFilter] collects, each as a local deal, and the store is
    what [insertMultipleInTable] of those deals makes it.  Up to 50 records
    they are the deals of the remote, each once. *)
Theorem get_deals_from_bx_stores_what_the_client_collects
    (env : environment) (link : string) (data : list object) (fuel : nat)
    (s : db) :
  decryptText env = Ok link ->
  delivers (connect env link) accepted_filter data ->
  (pages (Z.of_nat (length data)) <= fuel)%nat ->
  get_deals_from_bx_insert_in_db fuel env s
  = (Answered (Response 200 (DealsAdded (local_deal <$> collected data))),
     insertMultipleInTable "deals" (local_deal <$> collected data) s)
  /\ ((length data <= 50)%nat -> collected data = data).
Proof.
  intros Hlink Hdelivers Hfuel.
  split; [|apply DealsServiceFacts.collected_one_page].
  unfold get_deals_from_bx_insert_in_db.
  rewrite Hlink. unfold getDealsByFilter, getDealsByFilter_trace. cbn [snd].
  pose proof (DealsServiceFacts.list_loop_delivers _ _ _ Hdelivers
                (pages (Z.of_nat (length data))) 0 fuel [] []) as Hloop.
  change (pageSize * Z.of_nat 0) with 0 in Hloop.
  rewrite Hloop; [reflexivity|lia| |lia].
  unfold pages. lia.
Qed.

End Handlers.

(** C10: the remote holds deal 7, of the accepted category and price type,
    and a product row for it.  [getDealById] reads the fields of the deal
    off the envelope, the guard turns the deal down, and neither the deal
    nor a line item is written: the answer is the 500 of the [catch] block
    and [deals] is empty afterwards.  Whatever the client returns, a
    single-deal add leaves [deals_products] as it was, [deal_products] being
    the table it names, and one that [createTables] does not create. *)
Theorem add_deal_handler_writes_nothing_for_an_eligible_deal :
  @add_deal_handler plain_host
    (with_remote (packaged [eligible] [one_product])) (ask 7)
    (createTables ∅)
  = (failed, createTables ∅)
  /\ getAll "deals"
       (@add_deal_handler plain_host
          (with_remote (packaged [eligible] [one_product])) (ask 7)
          (createTables ∅)).2
     = Ok []
  /\ createTables ∅ !! "deal_products" = None
  /\ (forall (host : Host) env req s,
        (@add_deal_handler host env req s).2 !! "deals_products"
        = s !! "deals_products").
Proof.
  split; [reflexivity|]. split; [reflexivity|]. split; [reflexivity|].
  intros host env req s. apply add_deal_handler_deals_products.
Qed.


(** C5: the product rows of deal 1 arrive and the request for deal 2 fails;
    the caller gets the 500 answer, and the rows of deal 1 are not stored. *)
Lemma later_fetch_failure_is_a_hard_failure :
  @get_deals_product_rows_from_bx_insert_in_db plain_host
    (with_remote rows_for_deal_1_only) two_deals
  = (Answered (Response 500 INTERNAL_SERVER_ERROR), two_deals)
  /\ getAll "deals_products"
       (@get_deals_product_rows_from_bx_insert_in_db plain_host
          (with_remote rows_for_deal_1_only) two_deals).2
     = Ok [].
Proof. split; vm_compute; reflexivity. Qed.

Lemma null_from_the_client_fails_the_call_witness :
  (forall fuel,
     @getDealsByFilter plain_host fuel unreachable accepted_filter
     = Resolved None ->
     @get_deals_from_bx_insert_in_db plain_host fuel (with_remote unreachable)
       two_deals = (failed, two_deals))
  /\ (forall deals deal,
        getAll "deals" two_deals = Ok deals ->
        deal ∈ deals ->
        getDealProductRows unreachable (get deal "id") = Resolved None ->
        @get_deals_product_rows_from_bx_insert_in_db plain_host
          (with_remote unreachable) two_deals = (failed, two_deals))
  /\ (forall req,
        truthy (requested_id req) = true ->
        getDealById unreachable (requested_id req) = Resolved None ->
        @add_deal_handler plain_host (with_remote unreachable) req two_deals
        = (failed, two_deals))
  /\ (forall req deal,
        truthy (requested_id req) = true ->
        getDealById unreachable (requested_id req) = Resolved (Some deal) ->
        @not_eligible plain_host deal = false ->
        getDealProductRows unreachable (get deal "id") = Resolved None ->
        (@add_deal_handler plain_host (with_remote unreachable) req
           two_deals).1 = failed).
Proof.
  apply (@null_from_the_client_fails_the_call plain_host
           (with_remote unreachable) "https://example.bitrix/webhook"
           two_deals).
  reflexivity.
Defined.

Lemma add_deal_handler_rejects_when_both_differ_witness :
  @add_deal_handler plain_host
    (with_remote (crm [("ID", PNum 9); ("CATEGORY_ID", PNum 3);
                       ("UF_CRM_1710140074001", PNum 1)]))
    (ask 9) (createTables ∅)
  = (failed, createTables ∅).
Proof.
  apply (@add_deal_handler_rejects_when_both_differ plain_host _ _ _
           "https://example.bitrix/webhook"
           (deal_record (PNum 9) PUndefined (PNum 3) (PNum 1) PUndefined));
    try reflexivity; discriminate.
Defined.

Lemma get_deals_from_bx_stores_what_the_client_collects_witness :
  @get_deals_from_bx_insert_in_db plain_host 3
    (with_remote (packaged (numbered 120) [])) (createTables ∅)
  = (Answered
       (Response 200 (DealsAdded (local_deal <$> collected (numbered 120)))),
     @insertMultipleInTable plain_host "deals"
       (local_deal <$> collected (numbered 120)) (createTables ∅)).
Proof.
  apply (@get_deals_from_bx_stores_what_the_client_collects plain_host
           (with_remote (packaged (numbered 120) []))
           "https://example.bitrix/webhook" (numbered 120) 3).
  - reflexivity.
  - apply DealsServiceFacts.packaged_delivers.
  - vm_compute. lia.
Defined.

End IndexFacts.

(** ** The credential vault *)

Module VaultFacts.
Import Vault Examples.

Section Cbc.
Context `{BlockCipher}.

Lemma xor_bytes_length a b :
  length a = length b -> length (xor_bytes a b) = length a.
Proof. intros Hl. unfold xor_bytes. rewrite length_zip_with. lia. Qed.

Lemma xor_bytes_cancel_r a b :
  length a = length b -> xor_bytes (xor_bytes a b) b = a.
Proof.
  unfold xor_bytes. revert b. induction a as [|x a IH]; intros [|y b] Hl;
    simpl in *; try done.
  rewrite IH by lia. f_equal.
  by rewrite Z.lxor_assoc, Z.lxor_nilpotent, Z.lxor_0_r.
Qed.

Lemma xor_bytes_cancel_l a b :
  length a = length b -> xor_bytes a (xor_bytes a b) = b.
Proof.
  unfold xor_bytes. revert b. induction a as [|x a IH]; intros [|y b] Hl;
    simpl in *; try done.
  rewrite IH by lia. f_equal.
  by rewrite <- Z.lxor_assoc, Z.lxor_nilpotent, Z.lxor_0_l.
Qed.

Lemma xor_bytes_inj_r a b b' :
  length a = length b -> length a = length b' ->
  xor_bytes a b = xor_bytes a b' -> b = b'.
Proof.
  intros Hb Hb' Heq.
  rewrite <- (xor_bytes_cancel_l a b), <- (xor_bytes_cancel_l a b') by done.
  by rewrite Heq.
Qed.

Lemma pad_length text :
  length (pad text) = ((length text / block_size + 1) * block_size)%nat.
Proof.
  pose proof block_size_positive as Hpos.
  unfold pad. rewrite length_app, length_replicate.
  pose proof (Nat.div_mod_eq (length text) block_size).
  pose proof (Nat.mod_upper_bound (length text) block_size ltac:(lia)).
  nia.
Qed.

Lemma last_replicate (n : nat) (v : Z) :
  (0 < n)%nat -> last (replicate n v) = Some v.
Proof.
  intros Hn. destruct n as [|n]; [lia|].
  replace (S n) with (n + 1)%nat by lia.
  rewrite replicate_add. apply last_snoc.
Qed.

Lemma unpad_pad text : unpad (pad text) = Some text.
Proof.
  pose proof block_size_positive as Hpos.
  pose proof (Nat.mod_upper_bound (length text) block_size ltac:(lia)) as Hm.
  unfold unpad, pad.
  set (n := (block_size - length text mod block_size)%nat).
  assert (Hn : (1 <= n <= block_size)%nat) by (unfold n; lia).
  assert (Hlast : last (text ++ replicate n (Z.of_nat n)) = Some (Z.of_nat n)).
  { rewrite last_app, last_replicate by lia. done. }
  rewrite Hlast, Nat2Z.id, length_app, length_replicate.
  replace (length text + n - n)%nat with (length text) by lia.
  rewrite drop_app_length, take_app_length.
  rewrite decide_True; [done|]. split; [lia|]. split; [lia|done].
Qed.

Lemma unpad_is_pad p text :
  (length p mod block_size = 0)%nat -> unpad p = Some text -> p = pad text.
Proof.
  pose proof block_size_positive as Hpos.
  intros Hmod Hun. unfold unpad in Hun.
  destruct (last p) as [b|] eqn:Hlast; [|done].
  case_decide as Hok; [|done]. destruct Hok as (Hn & Hle & Hdrop).
  simplify_eq. unfold pad.
  set (n := Z.to_nat b) in *.
  rewrite length_take.
  replace ((length p - n) `min` length p)%nat with (length p - n)%nat by lia.
  assert (Hb : b = Z.of_nat n) by (unfold n; lia).
  assert (Hpad : (block_size - (length p - n) mod block_size)%nat = n).
  { apply Nat.Div0.mod_divides in Hmod as [q Hq].
    destruct q as [|q]; [lia|].
    destruct (decide (n = block_size)) as [->|Hne].
    - replace (length p - block_size)%nat with (q * block_size)%nat by lia.
      rewrite Nat.Div0.mod_mul. lia.
    - replace (length p - n)%nat
        with ((block_size - n) + q * block_size)%nat by lia.
      rewrite Nat.Div0.mod_add, Nat.mod_small by lia. lia. }
  rewrite Hpad, <- Hb, <- Hdrop. by rewrite take_drop.
Qed.

Lemma cbc_encrypt_length blocks key previous p :
  length key = key_size ->
  length previous = block_size ->
  length p = (blocks * block_size)%nat ->
  length (cbc_encrypt blocks key previous p) = (blocks * block_size)%nat.
Proof.
  intros Hkey. revert previous p.
  induction blocks as [|blocks IH]; intros previous p Hprev Hp; [done|].
  cbn [cbc_encrypt].
  assert (Hblock : length (take block_size p) = block_size)
    by (rewrite length_take; lia).
  assert (Hc : length (encrypt_block key
                         (xor_bytes (take block_size p) previous))
               = block_size).
  { apply encrypt_block_length; [done|]. rewrite xor_bytes_length; lia. }
  rewrite length_app, Hc, IH; [lia|done|].
  rewrite length_drop. lia.
Qed.

Lemma cbc_decrypt_length blocks key previous c :
  length key = key_size ->
  length previous = block_size ->
  length c = (blocks * block_size)%nat ->
  length (cbc_decrypt blocks key previous c) = (blocks * block_size)%nat.
Proof.
  intros Hkey. revert previous c.
  induction blocks as [|blocks IH]; intros previous c Hprev Hc; [done|].
  cbn [cbc_decrypt].
  assert (Hblock : length (take block_size c) = block_size)
    by (rewrite length_take; lia).
  rewrite length_app, xor_bytes_length, decrypt_block_length, IH;
    rewrite ?length_drop, ?decrypt_block_length; lia.
Qed.

Lemma cbc_decrypt_encrypt blocks key previous p :
  length key = key_size ->
  length previous = block_size ->
  length p = (blocks * block_size)%nat ->
  cbc_decrypt blocks key previous (cbc_encrypt blocks key previous p) = p.
Proof.
  intros Hkey. revert previous p.
  induction blocks as [|blocks IH]; intros previous p Hprev Hp.
  - by destruct p.
  - cbn [cbc_encrypt cbc_decrypt].
    assert (Hblock : length (take block_size p) = block_size)
      by (rewrite length_take; lia).
    set (c := encrypt_block key (xor_bytes (take block_size p) previous)).
    assert (Hc : length c = block_size).
    { apply encrypt_block_length; [done|]. rewrite xor_bytes_length; lia. }
    rewrite take_app_length', drop_app_length' by done.
    unfold c at 1. rewrite decrypt_encrypt_block;
      [|done|rewrite xor_bytes_length; lia].
    rewrite xor_bytes_cancel_r by lia.
    rewrite IH; [apply take_drop|done|rewrite length_drop; lia].
Qed.

Lemma pad_blocks text :
  (length (pad text) / block_size = length text / block_size + 1)%nat.
Proof.
  pose proof block_size_positive. rewrite pad_length.
  apply Nat.div_mul. lia.
Qed.

(** C4, as amended.  For every text, and every key and IV of the lengths
    the cipher takes, decrypting the ciphertext with the same key and IV
    gives the text back, and decrypting it with the same key and any other IV
    fails or gives another value. *)
Theorem decrypt_inverts_encrypt_and_tells_the_iv (text key iv : list Z) :
  length key = key_size -> length iv = block_size ->
  exists c,
    encryptText text key iv = Ok c
    /\ decryptText c key iv = Ok text
    /\ (forall iv', iv' <> iv -> decryptText c key iv' <> Ok text).
Proof.
  intros Hkey Hiv. pose proof block_size_positive as Hpos.
  unfold encryptText. rewrite decide_True by done. eexists. split; [done|].
  set (n := (length (pad text) / block_size)%nat).
  assert (Hn : n = S (length text / block_size))
    by (unfold n; rewrite pad_blocks; lia).
  assert (Hp : length (pad text) = (n * block_size)%nat)
    by (rewrite pad_length; lia).
  set (c := cbc_encrypt n key iv (pad text)).
  assert (Hc : length c = (n * block_size)%nat)
    by (by apply cbc_encrypt_length).
  assert (Hblocks : (length c / block_size)%nat = n)
    by (rewrite Hc; apply Nat.div_mul; lia).
  assert (Hshape : c <> [] /\ (length c mod block_size)%nat = 0%nat).
  { split; [intros Hnil; rewrite Hnil in Hc; simpl in Hc; nia|].
    rewrite Hc. apply Nat.Div0.mod_mul. }
  split.
  - unfold decryptText. rewrite !decide_True by done. rewrite Hblocks.
    unfold c. rewrite cbc_decrypt_encrypt by done. by rewrite unpad_pad.
  - intros iv' Hne. unfold decryptText.
    destruct (decide (length key = key_size /\ length iv' = block_size))
      as [[_ Hiv']|]; [|done].
    rewrite decide_True by done. rewrite Hblocks.
    destruct (unpad (cbc_decrypt n key iv' c)) as [text'|] eqn:Hun; [|done].
    intros Heq. injection Heq as ->.
    apply unpad_is_pad in Hun;
      [|rewrite cbc_decrypt_length by done; apply Nat.Div0.mod_mul].
    pose proof (cbc_decrypt_encrypt n key iv (pad text) Hkey Hiv Hp) as Hsame.
    fold c in Hsame. rewrite <- Hsame in Hun.
    rewrite Hn in Hun. cbn [cbc_decrypt] in Hun.
    apply app_inv_tail in Hun.
    apply Hne.
    assert (Hd : length (decrypt_block key (take block_size c)) = block_size).
    { apply decrypt_block_length; [done|]. rewrite length_take. nia. }
    eapply xor_bytes_inj_r; [| |exact Hun]; lia.
Qed.

(** For a text shorter than a block, every other key has an IV under which
    the ciphertext decrypts to the text. *)
Lemma wrong_key_has_an_iv (text key key' iv : list Z) :
  length key = key_size -> length key' = key_size ->
  length iv = block_size -> (length text < block_size)%nat ->
  exists c,
    encryptText text key iv = Ok c
    /\ decryptText c key' (xor_bytes (decrypt_block key' c) (pad text))
       = Ok text.
Proof.
  intros Hkey Hkey' Hiv Hshort. pose proof block_size_positive as Hpos.
  unfold encryptText. rewrite decide_True by done. eexists. split; [done|].
  assert (Hp : length (pad text) = block_size).
  { rewrite pad_length, Nat.div_small by done. lia. }
  rewrite Hp, Nat.div_same by lia. cbn [cbc_encrypt].
  rewrite app_nil_r, take_ge by lia.
  set (c := encrypt_block key (xor_bytes (pad text) iv)).
  assert (Hc : length c = block_size).
  { apply encrypt_block_length; [done|]. rewrite xor_bytes_length; lia. }
  assert (Hd : length (decrypt_block key' c) = block_size)
    by (by apply decrypt_block_length).
  unfold decryptText.
  rewrite decide_True by (split; [done|rewrite xor_bytes_length; lia]).
  rewrite decide_True.
  2:{ split; [intros Hnil; rewrite Hnil in Hc; simpl in Hc; lia|].
      rewrite Hc. apply Nat.Div0.mod_same. }
  rewrite Hc, Nat.div_same by lia. cbn [cbc_decrypt].
  rewrite app_nil_r, take_ge by lia.
  rewrite xor_bytes_cancel_l by lia. by rewrite unpad_pad.
Qed.
End Cbc.

(** C4: a one-block secret encrypted under [key_a] and [iv_a] decrypts to
    itself under the other key [key_b] and an IV made for it.  The cipher
    here is [xor_cipher]; by [wrong_key_has_an_iv] every block cipher has
    such an IV for every other key. *)
Lemma wrong_key_and_iv_decrypt_the_secret :
  key_b <> key_a
  /\ exists c,
       @encryptText xor_cipher secret key_a iv_a = Ok c
       /\ @decryptText xor_cipher c key_b
            (xor_bytes (@decrypt_block xor_cipher key_b c)
               (@pad xor_cipher secret))
          = Ok secret.
Proof.
  split; [discriminate|].
  apply (@wrong_key_has_an_iv xor_cipher); vm_compute; reflexivity || lia.
Qed.

Lemma decrypt_inverts_encrypt_and_tells_the_iv_witness :
  exists c,
    @encryptText xor_cipher secret key_a iv_a = Ok c
    /\ @decryptText xor_cipher c key_a iv_a = Ok secret
    /\ (forall iv', iv' <> iv_a ->
          @decryptText xor_cipher c key_a iv' <> Ok secret).
Proof.
  apply (@decrypt_inverts_encrypt_and_tells_the_iv xor_cipher secret key_a
           iv_a); reflexivity.
Defined.

End VaultFacts.

(** ** The pages of [getDealsByFilter] *)

Module PagesFacts.
Import Js DealsService Spec SpecPages.

Section Client.
Context `{Host}.

Lemma offsets_snoc k : offsets 0 k ++ [pageSize * Z.of_nat k] = offsets 0 (S k).
Proof.
  unfold offsets. replace (S k) with (k + 1)%nat by lia.
  rewrite seq_app, fmap_app. reflexivity.
Qed.

Lemma list_loop_pages bx filter fuel :
  forall (k : nat) acc requested,
    requested = offsets 0 k ->
    acc = mjoin (page_items bx filter <$> requested) ->
    let r := list_loop fuel bx filter (pageSize * Z.of_nat k) acc requested in
    exists n,
      (k <= n <= k + fuel)%nat /\ r.1 = offsets 0 n
      /\ ((0 < fuel)%nat -> (k < n)%nat)
      /\ (forall all, r.2 = Done all ->
            all = mjoin (page_items bx filter <$> r.1)).
Proof.
  induction fuel as [|fuel IH]; intros k acc requested Hreq Hacc; cbn zeta.
  - exists k. cbn [list_loop fst snd]. repeat split; try lia; try done.
  - cbn [list_loop]. rewrite Hreq, offsets_snoc.
    assert (Hjoin : forall items,
              page_items bx filter (pageSize * Z.of_nat k) = items ->
              mjoin (page_items bx filter <$> offsets 0 (S k)) = acc ++ items).
    { intros items Hitems. rewrite <- offsets_snoc, fmap_app, join_app.
      rewrite <- Hreq, <- Hacc. simpl. rewrite Hitems. by rewrite app_nil_r. }
    unfold page_items in Hjoin at 1.
    destruct (deals_list bx filter (pageSize * Z.of_nat k))
      as [[[[items|] tot]|]|e]; cbn [result total fst snd];
      try (exists (S k); repeat split; try lia; done).
    specialize (Hjoin items eq_refl).
    destruct (lt_num tot pageSize); cbn [fst snd].
    { exists (S k). repeat split; try lia; try done. intros all [= <-]. done. }
    destruct (num_lt (pageSize * Z.of_nat k + pageSize) tot); cbn [fst snd].
    2:{ exists (S k). repeat split; try lia; try done. intros all [= <-]. done. }
    replace (pageSize * Z.of_nat k + pageSize) with (pageSize * Z.of_nat (S k))
      by (unfold pageSize; lia).
    destruct (IH (S k) (acc ++ items) (offsets 0 (S k)) eq_refl
                (eq_sym Hjoin)) as (n & Hn & Hoff & _ & Hall).
    exists n. repeat split; try lia; done.
Qed.

(** X4.  Whatever the remote answers, [getDealsByFilter] asks for the
    offsets 0, 50, 100, ... in this order, each once and none skipped, at
    least one and no more than the iterations it is given; and what it
    resolves to, when it resolves to a list, is the records of the pages it
    asked for, in that order. *)
Theorem getDealsByFilter_asks_each_page_once (bx : Bitrix) (filter : object)
    (fuel : nat) :
  let requested := (getDealsByFilter_trace fuel bx filter).1 in
  requested = offsets 0 (length requested)
  /\ (length requested <= fuel)%nat
  /\ ((0 < fuel)%nat -> (0 < length requested)%nat)
  /\ (forall all,
        getDealsByFilter fuel bx filter = Resolved (Some all) ->
        all = mjoin (page_items bx filter <$> requested)).
Proof.
  cbn zeta. unfold getDealsByFilter, getDealsByFilter_trace. cbn [fst snd].
  destruct (list_loop_pages bx filter fuel 0 [] [] eq_refl eq_refl)
    as (n & Hn & Hoff & Hpos & Hall).
  cbn zeta in *. change (pageSize * Z.of_nat 0) with 0 in *.
  assert (Hlen : length (list_loop fuel bx filter 0 [] []).1 = n).
  { rewrite Hoff. unfold offsets. by rewrite length_fmap, length_seq. }
  rewrite Hlen. split; [done|]. split; [lia|]. split; [done|].
  intros all Hres. apply Hall.
  destruct (list_loop fuel bx filter 0 [] []).2; simpl in Hres; congruence.
Qed.
End Client.

End PagesFacts.

Module StoreFacts.
Import Db DbQueries StoreSpec.

Lemma insert_row_length (new : row) (rs : list row) :
  length (insert_row new rs) = S (length rs).
Proof.
  induction rs as [|r rs IH]; simpl; [done|].
  destruct (rowid new <? rowid r); simpl; by rewrite ?IH.
Qed.

Lemma insert_row_sorted (new : row) (rs : list row) :
  StronglySorted (fun a b => rowid a < rowid b) rs ->
  Forall (fun q => rowid q <> rowid new) rs ->
  StronglySorted (fun a b => rowid a < rowid b) (insert_row new rs).
Proof.
  induction 1 as [|r rs Hrs IH Hr]; intros Hne; simpl.
  - repeat constructor.
  - apply Forall_cons in Hne as [Hr_new Hne].
    destruct (rowid new <? rowid r) eqn:Hlt.
    + apply Z.ltb_lt in Hlt. constructor; [by constructor|].
      constructor; [done|].
      eapply Forall_impl; [exact Hr|]. simpl. intros q Hq. lia.
    + apply Z.ltb_ge in Hlt. constructor; [by apply IH|].
      apply Forall_forall. intros x [->|Hx]%DbFacts.elem_of_insert_row; [lia|].
      by eapply Forall_forall in Hr.
Qed.

Lemma filter_sorted (P : row -> Prop) `{!forall r, Decision (P r)}
    (rs : list row) :
  StronglySorted (fun a b => rowid a < rowid b) rs ->
  StronglySorted (fun a b => rowid a < rowid b) (base.filter P rs).
Proof.
  induction 1 as [|r rs Hrs IH Hr]; [constructor|].
  rewrite filter_cons. destruct (decide (P r)); [|done].
  constructor; [done|].
  apply Forall_forall. intros x [_ Hx]%list_elem_of_filter.
  by eapply Forall_forall in Hr.
Qed.

(** In a strictly sorted list the rowid names the row. *)
Lemma sorted_rowid_inj (rs : list row) r q :
  StronglySorted (fun a b => rowid a < rowid b) rs ->
  r ∈ rs -> q ∈ rs -> rowid r = rowid q -> r = q.
Proof.
  induction 1 as [|x rs Hrs IH Hx]; intros Hr Hq Heq.
  - by apply elem_of_nil in Hr.
  - apply elem_of_cons in Hr as [->|Hr], Hq as [->|Hq]; try done.
    + eapply Forall_forall in Hx; [|exact Hq]. lia.
    + eapply Forall_forall in Hx; [|exact Hr]. lia.
    + by apply IH.
Qed.

Lemma collide_on_sym t r q key : collide_on t r q key = collide_on t q r key.
Proof.
  unfold collide_on. induction key as [|c key IH]; simpl; [done|].
  rewrite IH. f_equal. apply bool_decide_ext.
  split; intros [Hn He]; split; congruence.
Qed.


Section Store.
Context `{Host} `{Planner}.

Lemma filter_consistent (t : table) (P : row -> Prop)
    `{!forall r, Decision (P r)} (rs : list row) :
  consistent_rows t rs -> consistent_rows t (base.filter P rs).
Proof.
  intros [Hsorted Hunique]. split; [by apply filter_sorted|].
  intros r q [_ Hr]%list_elem_of_filter [_ Hq]%list_elem_of_filter.
  by apply Hunique.
Qed.

(** A row that clashes with none of the rows can join them. *)
Lemma insert_consistent (t : table) (new : row) (rs : list row) :
  consistent_rows t rs ->
  (forall q, q ∈ rs -> replaced_by t new q = false) ->
  consistent_rows t (insert_row new rs).
Proof.
  intros [Hsorted Hunique] Hnew. split.
  - apply insert_row_sorted; [done|]. apply Forall_forall. intros q Hq.
    specialize (Hnew q Hq). unfold replaced_by in Hnew.
    apply orb_false_elim in Hnew as [Hid _].
    by apply bool_decide_eq_false in Hid.
  - assert (Hclash : forall q, q ∈ rs ->
              existsb (collide_on t q new) (unique t) = false).
    { intros q Hq. specialize (Hnew q Hq). unfold replaced_by in Hnew.
      by apply orb_false_elim in Hnew as [_ Hc]. }
    intros r q [->|Hr]%DbFacts.elem_of_insert_row
      [->|Hq]%DbFacts.elem_of_insert_row Hne;
      [done| | |by apply Hunique].
    + rewrite <- (Hclash q Hq). clear.
      induction (unique t) as [|k ks IH]; simpl; [done|].
      by rewrite IH, collide_on_sym.
    + by apply Hclash.
Qed.

(** The constraints read the table only through its declaration. *)
Lemma consistent_rows_same_declaration (t t' : table) rs :
  primary t' = primary t -> unique t' = unique t ->
  consistent_rows t rs -> consistent_rows t' rs.
Proof.
  intros Hp Hu [Hsorted Hunique]. split; [done|].
  intros r q Hr Hq Hne. rewrite Hu, <- (Hunique r q Hr Hq Hne).
  unfold collide_on, cell. by rewrite Hp.
Qed.

Lemma run_consistent (t : table) fields vals :
  consistent t -> consistent (run t fields vals).
Proof.
  intros Ht. unfold run, insert_or_replace.
  destruct (new_row t fields vals) as [new|]; [|done].
  cbn [default from_option]. unfold id, consistent. cbn [rows].
  apply (consistent_rows_same_declaration t); [reflexivity..|].
  apply insert_consistent; [by apply filter_consistent|].
  by intros q [Hq _]%list_elem_of_filter.
Qed.

Lemma existsb_false_elem_of {A : Type} (p : A -> bool) (l : list A) x :
  existsb p l = false -> x ∈ l -> p x = false.
Proof.
  intros Hl Hx. destruct (p x) eqn:Hp; [|done].
  assert (existsb p l = true); [|congruence].
  apply existsb_exists. exists x. by rewrite <- list_elem_of_In.
Qed.

Lemma update_each_consistent (t : table) updateFields targets :
  forall current rows',
    consistent_rows t current ->
    update_each t updateFields targets current = Some rows' ->
    consistent_rows t rows'.
Proof.
  induction targets as [|r targets IH]; intros current rows' Hc Hup;
    cbn [update_each] in Hup; [by simplify_eq|].
  destruct (updated_row t updateFields r) as [r'|]; [|done].
  destruct (existsb _ _) eqn:Hclash; [done|].
  eapply IH; [|exact Hup].
  apply insert_consistent; [by apply filter_consistent|].
  intros q Hq. by eapply existsb_false_elem_of.
Qed.

Lemma foldl_run_consistent fields (records : list object) :
  forall t,
    consistent t ->
    consistent (foldl (fun t' record =>
                         run t' fields (record_values fields record))
                  t records).
Proof.
  induction records as [|record records IH]; intros t Ht; [done|].
  cbn [foldl]. apply IH. by apply run_consistent.
Qed.

Lemma put_consistent (s : db) name (t : table) :
  all_consistent s -> consistent t -> all_consistent (<[name := t]> s).
Proof.
  intros Hs Ht name' t' Hlook.
  destruct (decide (name = name')) as [->|Hne].
  - rewrite lookup_insert_eq in Hlook. by simplify_eq.
  - rewrite lookup_insert_ne in Hlook by done. by eapply Hs.
Qed.

Lemma create_if_not_exists_consistent (s : db) name (t : table) :
  rows t = [] -> all_consistent s ->
  all_consistent (create_if_not_exists name t s).
Proof.
  intros Hrows Hs. unfold create_if_not_exists.
  destruct (s !! name); [done|]. apply put_consistent; [done|].
  unfold consistent, consistent_rows. rewrite Hrows.
  split; [constructor|]. intros r q Hr. by apply elem_of_nil in Hr.
Qed.

(** X5.  Every table keeps its constraints under the writes of [Db]: after
    [createTables], [insertInTable], [insertMultipleInTable], and after
    [deleteFromTable] and [updateTable] with clauses that compile, the rows
    of each table are in strictly increasing order of their primary key, and
    no two rows collide on a [UNIQUE] constraint. *)
Theorem writes_keep_the_constraints (s : db) :
  all_consistent s ->
  all_consistent (createTables s)
  /\ (forall tableName insertFields,
        all_consistent (insertInTable tableName insertFields s))
  /\ (forall tableName records,
        all_consistent (insertMultipleInTable tableName records s))
  /\ (forall tableName filter t,
        s !! tableName = Some t -> compiles t filter = true ->
        all_consistent (deleteFromTable tableName filter s))
  /\ (forall tableName updateFields filter t,
        s !! tableName = Some t ->
        compiles t updateFields = true -> compiles t filter = true ->
        all_consistent (updateTable tableName updateFields filter s)).
Proof.
  intros Hs. split; [|split; [|split; [|split]]].
  - unfold createTables.
    by do 2 (apply create_if_not_exists_consistent; [reflexivity|]).
  - intros tableName insertFields. unfold insertInTable.
    destruct (decide (tableName = "")); [done|].
    destruct (s !! tableName) as [t|] eqn:Ht; [|done].
    destruct (prepared t (keys insertFields)); [|done].
    apply put_consistent; [done|]. apply run_consistent. by eapply Hs.
  - intros tableName records. unfold insertMultipleInTable.
    destruct (decide (tableName = "")); [done|].
    destruct records as [|first rest]; [done|].
    destruct (s !! tableName) as [t|] eqn:Ht; [|done].
    destruct (prepared t (keys first)); [|done].
    apply put_consistent; [done|]. apply foldl_run_consistent. by eapply Hs.
  - intros tableName filter t Ht Hfilter. unfold deleteFromTable.
    destruct (decide (tableName = "")); [done|].
    rewrite Ht, Hfilter.
    apply put_consistent; [done|]. unfold consistent. cbn [rows].
    apply (consistent_rows_same_declaration t); [reflexivity..|].
    apply filter_consistent. by eapply Hs.
  - intros tableName updateFields filter t Ht Hset Hfilter.
    unfold updateTable.
    destruct (decide (tableName = "")); [done|].
    rewrite Ht, Hset, Hfilter. cbn [andb].
    destruct (update_each _ _ _ _) as [rows'|] eqn:Hup; [|done].
    apply put_consistent; [done|]. unfold consistent. cbn [rows].
    apply (consistent_rows_same_declaration t); [reflexivity..|].
    eapply update_each_consistent; [|exact Hup]. by eapply Hs.
Qed.

Lemma get_row_object (t : table) (r : row) c :
  c ∈ (columns t).*1 -> get (row_object t r) c = unbind (cell t r c).
Proof.
  unfold row_object. induction (columns t) as [|[c' a] cols IH]; intros Hc.
  - by apply elem_of_nil in Hc.
  - cbn [fmap list_fmap get fst snd]. destruct (decide (c' = c)) as [->|Hne];
      [done|].
    apply elem_of_cons in Hc as [->|Hc]; [done|]. by apply IH.
Qed.

Lemma unbind_inj x y : unbind x = unbind y -> x = y.
Proof. destruct x, y; simpl; congruence. Qed.

Lemma compiles_declared (t : table) (terms : object) c v :
  compiles t terms = true -> (c, v) ∈ terms -> c ∈ (columns t).*1.
Proof.
  unfold compiles. intros [_ Hall]%andb_true_iff Hin.
  rewrite forallb_forall in Hall. eapply bool_decide_eq_true_1.
  apply Hall. apply list_elem_of_In. unfold keys.
  apply list_elem_of_fmap. by exists (c, v).
Qed.

(** A row satisfies the [WHERE] clause exactly when its object shows the
    filter's values. *)
Lemma where_holds_shows (t : table) (filter : object) (r : row) :
  (forall c v, (c, v) ∈ filter -> c ∈ (columns t).*1) ->
  where_holds t filter r = shows t filter (row_object t r).
Proof.
  unfold where_holds, shows, term_holds.
  induction filter as [|[c v] filter IH]; intros Hdecl; [done|].
  cbn [forallb fst snd]. rewrite IH by (intros; eapply Hdecl; by right).
  f_equal. destruct (affinity_of (columns t) c) as [a|]; [|done].
  apply bool_decide_ext.
  rewrite get_row_object by (eapply Hdecl; by left).
  split; intros [Hn He]; (split; [done|]).
  - by rewrite He.
  - by apply unbind_inj.
Qed.

Lemma filter_fmap_row_object (t : table) (filter : object) (rs : list row) :
  (forall c v, (c, v) ∈ filter -> c ∈ (columns t).*1) ->
  row_object t <$> base.filter (fun r => where_holds t filter r = true) rs
  = base.filter (fun o => shows t filter o = true) (row_object t <$> rs).
Proof.
  intros Hdecl. induction rs as [|r rs IH]; [done|].
  rewrite fmap_cons, !filter_cons, <- IH, where_holds_shows by done.
  by destruct (decide (shows t filter (row_object t r) = true)).
Qed.

Lemma filter_none {A : Type} (P : A -> Prop) `{!forall x, Decision (P x)}
    (l : list A) :
  (forall x, x ∈ l -> ~ P x) -> base.filter P l = [].
Proof.
  induction l as [|x l IH]; intros Hl; [done|].
  rewrite filter_cons, decide_False by (apply Hl; by left).
  apply IH. intros y Hy. apply Hl. by right.
Qed.

(** A filter with a [null] value is satisfied by no row. *)
Lemma where_holds_nullish (t : table) (filter : object) (r : row) c v :
  (c, v) ∈ filter -> nullish v -> where_holds t filter r = false.
Proof.
  intros Hin Hv. unfold where_holds.
  destruct (forallb _ filter) eqn:Hall; [|done].
  rewrite forallb_forall in Hall.
  specialize (Hall (c, v) ltac:(by apply list_elem_of_In)).
  unfold term_holds in Hall. cbn [fst snd] in Hall.
  destruct (affinity_of (columns t) c) as [a|]; [|done].
  apply bool_decide_eq_true in Hall as [Hn _].
  destruct Hv as [-> | ->]; simpl in Hn; by rewrite cast_null in Hn.
Qed.

(** X6.  [getByFilter] with at least one field, all of them columns of the
    table, resolves to the rows of [getAll] whose fields are not [null] and
    equal the filter's values as the columns store them, in the order of
    SQLite's choice; a filter that carries a [null] or [undefined] value
    finds nothing, also where the column is [NULL]. *)
Theorem getByFilter_restricts_getAll (tableName : string) (filter : object)
    (s : db) (t : table) :
  tableName <> "" ->
  s !! tableName = Some t ->
  compiles t filter = true ->
  exists all found,
    getAll tableName s = Ok all
    /\ getByFilter tableName filter s = Ok found
    /\ found ≡ₚ base.filter (fun o => shows t filter o = true) all
    /\ (forall c v, (c, v) ∈ filter -> nullish v -> found = []).
Proof.
  intros Hname Ht Hcompiles. exists (row_object t <$> rows t).
  unfold getAll, getByFilter. rewrite !decide_False, Ht, Hcompiles by done.
  eexists. split; [done|]. split; [done|]. split.
  - rewrite <- filter_fmap_row_object
      by (intros c v; by apply compiles_declared).
    apply fmap_Permutation, plan_perm.
  - intros c v Hin Hv. rewrite filter_none.
    + pose proof (plan_perm t filter []) as Hperm.
      apply Permutation_nil_r in Hperm. by rewrite Hperm.
    + intros r _. by rewrite (where_holds_nullish t filter r c v).
Qed.

Lemma filter_insert_row_other (P : row -> Prop)
    `{!forall r, Decision (P r)} (new : row) (rs : list row) :
  ~ P new -> base.filter P (insert_row new rs) = base.filter P rs.
Proof.
  intros Hnew. induction rs as [|r rs IH]; simpl.
  - by rewrite filter_cons, decide_False.
  - destruct (rowid new <? rowid r).
    + by rewrite (filter_cons _ new), decide_False.
    + by rewrite !(filter_cons _ r), IH.
Qed.

(** X7.  A deal written by [insertInTable] under an id that is a 64-bit
    integer is what [getByFilter] finds under that id, alone, whatever the
    table held; and what [getByFilter] finds under any other such id is what
    it found before, up to the order. *)
Theorem inserted_deal_is_found_by_id (s : db) (rs : list row) (sq z : Z)
    (title category_id price_type date_create : prim) :
  int64 z = true ->
  s !! "deals" = Some (Table (columns deals_schema) "id" false [] rs sq) ->
  let s' := insertInTable "deals"
              (Spec.deal_record (PNum z) title category_id price_type
                 date_create) s in
  getByFilter "deals" [("id", PNum z)] s'
  = Ok [ [("id", PNum z);
          ("title", unbind (cast AText (bind title)));
          ("category_id", unbind (cast AInteger (bind category_id)));
          ("price_type", unbind (cast AInteger (bind price_type)));
          ("date_create", unbind (cast ANumeric (bind date_create)))] ]
  /\ (forall z', int64 z' = true -> z' <> z ->
        exists found found',
          getByFilter "deals" [("id", PNum z')] s' = Ok found
          /\ getByFilter "deals" [("id", PNum z')] s = Ok found'
          /\ found ≡ₚ found').
Proof.
  intros Hz Hs. cbn zeta.
  rewrite (DbFacts.insertInTable_deal s rs sq z) by done.
  assert (Hid : forall (t : table) z' r,
            int64 z' = true ->
            columns t = columns deals_schema -> primary t = "id" ->
            where_holds t [("id", PNum z')] r = bool_decide (rowid r = z')).
  { intros t z' r Hz' Hc Hp. unfold where_holds, term_holds, cell.
    cbn [forallb fst snd bind]. rewrite Hc, Hp. cbn [affinity_of columns
      deals_schema]. rewrite !decide_True by done.
    rewrite cast_integer, andb_true_r by done. apply bool_decide_ext.
    split; [intros [_ [= ->]]; done | intros ->; done]. }
  assert (Hfilter : forall (t : table) z' (l : list row),
            int64 z' = true ->
            columns t = columns deals_schema -> primary t = "id" ->
            base.filter (fun r => where_holds t [("id", PNum z')] r = true) l
            = base.filter (fun r => rowid r = z') l).
  { intros t z' l Hz' Hc Hp. apply list_filter_iff. intros r.
    rewrite Hid by done. apply bool_decide_eq_true. }
  unfold getByFilter. rewrite !decide_False by done.
  rewrite lookup_insert_eq, Hs.
  change (compiles _ [("id", PNum z)]) with true.
  split.
  - cbn match. rewrite Hfilter by done. cbn [rows].
    rewrite DbFacts.filter_insert_row_only; [|reflexivity|].
    + match goal with
      | |- context [plan ?t ?f [?r]] =>
          pose proof (plan_perm t f [r]) as Hperm
      end.
      apply Permutation_singleton_r in Hperm. rewrite Hperm. reflexivity.
    + apply Forall_forall. intros r [Hr _]%list_elem_of_filter.
      by apply bool_decide_eq_false in Hr.
  - intros z' Hz' Hne.
    change (compiles _ [("id", PNum z')]) with true. cbn match.
    eexists _, _. split; [done|]. split; [done|].
    rewrite !plan_perm. rewrite !Hfilter by done. cbn [rows].
    rewrite filter_insert_row_other by (cbn [rowid Spec.deal_row]; congruence).
    rewrite list_filter_filter.
    change (row_object (Table (columns deals_schema) "id" false []
                          (insert_row _ _) sq))
      with (row_object (Table (columns deals_schema) "id" false [] rs sq)).
    rewrite (list_filter_iff _ (fun r => rowid r = z')); [done|].
    intros r. rewrite bool_decide_eq_false. split; [tauto|].
    intros ->. split; [done|congruence].
Qed.

(** X8.  After [deleteFromTable] with a filter that compiles, [getByFilter]
    with that filter finds nothing, [getAll] returns the rows it returned
    before that do not show the filter's values, in the same order, and the
    other tables are as they were.  With an empty filter nothing is
    deleted. *)
Theorem deleted_rows_are_the_filtered_rows (tableName : string)
    (filter : object) (s : db) (t : table) :
  tableName <> "" ->
  s !! tableName = Some t ->
  compiles t filter = true ->
  let s' := deleteFromTable tableName filter s in
  getByFilter tableName filter s' = Ok []
  /\ (exists all,
        getAll tableName s = Ok all
        /\ getAll tableName s'
           = Ok (base.filter (fun o => shows t filter o = false) all))
  /\ (forall name, name <> tableName -> s' !! name = s !! name)
  /\ deleteFromTable tableName [] s = s.
Proof.
  intros Hname Ht Hcompiles. cbn zeta.
  assert (Hdecl : forall c v, (c, v) ∈ filter -> c ∈ (columns t).*1)
    by (intros c v; by apply compiles_declared).
  unfold deleteFromTable, getByFilter, getAll.
  rewrite !decide_False, Ht, Hcompiles by done.
  rewrite !lookup_insert_eq. cbn [rows].
  set (t' := {| columns := columns t; primary := primary t;
                autoincrement := autoincrement t; unique := unique t;
                rows := _; sequence := sequence t |}).
  change (compiles t' filter) with (compiles t filter). rewrite Hcompiles.
  split; [|split; [|split]].
  - rewrite filter_none.
    + pose proof (plan_perm t' filter []) as Hperm.
      apply Permutation_nil_r in Hperm. by rewrite Hperm.
    + intros r [Hr _]%list_elem_of_filter.
      change (where_holds t' filter r) with (where_holds t filter r).
      congruence.
  - exists (row_object t <$> rows t). split; [done|]. f_equal.
    change (row_object t') with (row_object t). unfold t'. cbn [rows].
    clear t'. induction (rows t) as [|r rs IH]; [done|].
    rewrite fmap_cons, !filter_cons, <- IH, where_holds_shows by done.
    by destruct (decide (shows t filter (row_object t r) = false)).
  - intros name Hne. by rewrite lookup_insert_ne.
  - done.
Qed.

Lemma sorted_NoDup (rs : list row) :
  StronglySorted (fun a b => rowid a < rowid b) rs -> NoDup rs.
Proof.
  induction 1 as [|r rs Hrs IH Hr]; constructor; [|done].
  intros Hin. eapply Forall_forall in Hr; [|exact Hin]. lia.
Qed.

Lemma filter_all {A : Type} (P : A -> Prop) `{!forall x, Decision (P x)}
    (l : list A) :
  (forall x, x ∈ l -> P x) -> base.filter P l = l.
Proof.
  induction l as [|x l IH]; intros Hl; [done|].
  rewrite filter_cons, decide_True by (apply Hl; by left).
  f_equal. apply IH. intros y Hy. apply Hl. by right.
Qed.

(** In rows sorted by rowid, putting a row in the place of the row with
    its rowid changes that row and no other. *)
Lemma insert_row_front (new : row) (rs : list row) :
  Forall (fun q => rowid new < rowid q) rs -> insert_row new rs = new :: rs.
Proof.
  destruct rs as [|r rs]; [done|]. intros [Hr _]%Forall_cons. simpl.
  by rewrite (proj2 (Z.ltb_lt _ _) Hr).
Qed.

Lemma insert_row_replaces (r r' : row) (rs : list row) :
  StronglySorted (fun a b => rowid a < rowid b) rs -> r ∈ rs ->
  rowid r' = rowid r ->
  insert_row r' (base.filter (fun q => rowid q <> rowid r) rs)
  = (fun q => if bool_decide (rowid q = rowid r) then r' else q) <$> rs.
Proof.
  intros Hsorted Hr Hid. induction Hsorted as [|x rs Hrs IH Hx];
    [by apply elem_of_nil in Hr|].
  rewrite filter_cons, fmap_cons.
  destruct (decide (rowid x = rowid r)) as [Hx_r|Hx_r].
  - rewrite decide_False by tauto. rewrite bool_decide_eq_true_2 by done.
    assert (Hlater : Forall (fun q => rowid r < rowid q) rs).
    { eapply Forall_impl; [exact Hx|]. simpl. intros q Hq. lia. }
    rewrite filter_all.
    + rewrite insert_row_front by (by rewrite Hid). f_equal.
      clear -Hlater. induction Hlater as [|q rs Hq _ IH]; [done|].
      rewrite fmap_cons, bool_decide_eq_false_2 by lia. by f_equal.
    + intros q Hq. eapply Forall_forall in Hlater; [|exact Hq]. lia.
  - rewrite decide_True by done. rewrite bool_decide_eq_false_2 by done.
    apply elem_of_cons in Hr as [->|Hr]; [done|].
    assert (rowid x < rowid r) by (by eapply Forall_forall in Hx).
    simpl. rewrite (proj2 (Z.ltb_ge _ _)) by lia. f_equal. by apply IH.
Qed.

(** The value bound for a field that [updateFields] names. *)
Lemma listed_bind_values (updateFields : object) c :
  c ∈ keys updateFields ->
  listed (keys updateFields) (bind <$> values updateFields) c
  = bind (get updateFields c).
Proof.
  induction updateFields as [|[c' v] fields IH]; intros Hc;
    [by apply elem_of_nil in Hc|].
  cbn. destruct (decide (c' = c)) as [->|Hne]; [done|].
  apply elem_of_cons in Hc as [->|Hc]; [done|]. by apply IH.
Qed.

Lemma cell_of_affinity (cols : list (string * affinity))
    (value : string * affinity -> sqlval) c a :
  affinity_of cols c = Some a ->
  cell_of ((fun ca => (ca.1, value ca)) <$> cols) c = value (c, a).
Proof.
  induction cols as [|[c' a'] cols IH]; [done|]. cbn.
  destruct (decide (c' = c)) as [->|Hne]; [by intros [= ->]|]. apply IH.
Qed.

Lemma affinity_of_filter (cols : list (string * affinity)) pk c :
  c <> pk ->
  affinity_of (base.filter (fun ca => ca.1 <> pk) cols) c
  = affinity_of cols c.
Proof.
  intros Hne. induction cols as [|[c' a'] cols IH]; [done|].
  rewrite filter_cons. cbn [fst]. destruct (decide (c' <> pk)) as [Hc'|Hc'].
  - cbn. by rewrite IH.
  - cbn. rewrite decide_False; [done|]. intros ->. by apply Hc'.
Qed.

(** An [UPDATE] that does not set the key gives every target a new version
    under the same rowid. *)
Lemma updated_row_sets (t : table) (updateFields : object) (r : row) :
  primary t ∉ keys updateFields ->
  exists r', updated_row t updateFields r = Some r'
             /\ sets t updateFields r r'.
Proof.
  intros Hkey. unfold updated_row. rewrite bool_decide_eq_false_2 by done.
  eexists. split; [done|]. split; [done|]. intros c a Haff Hne.
  cbn [cells].
  rewrite (cell_of_affinity _
             (fun ca => if bool_decide (ca.1 ∈ keys updateFields)
                        then cast ca.2
                               (listed (keys updateFields)
                                  (bind <$> values updateFields) ca.1)
                        else cell_of (cells r) ca.1) c a)
    by (by rewrite affinity_of_filter).
  cbn [fst snd]. destruct (bool_decide (c ∈ keys updateFields)) eqn:Hc;
    [|done].
  apply bool_decide_eq_true in Hc. by rewrite listed_bind_values.
Qed.

(** A column that the [UPDATE] does not set is as it was, if the new version
    has it at all. *)
Lemma updated_row_other (t : table) (updateFields : object) (r r' : row) c :
  primary t ∉ keys updateFields -> c ∉ keys updateFields ->
  updated_row t updateFields r = Some r' ->
  cell t r' c = cell t r c \/ cell t r' c = SNull.
Proof.
  intros Hkey Hc. unfold updated_row. rewrite bool_decide_eq_false_2 by done.
  intros [= <-]. unfold cell. destruct (decide (c = primary t)); [by left|].
  cbn [cells]. induction (base.filter _ (columns t)) as [|[c' a'] cols IH];
    [by right|].
  cbn. destruct (decide (c' = c)) as [->|]; [|done].
  left. by rewrite bool_decide_eq_false_2.
Qed.

(** An [UPDATE] that sets neither the key nor a column of a [UNIQUE]
    constraint is not aborted: each target gets its new version, in place,
    and the other rows are as they were. *)
Lemma update_each_sets (t : table) (updateFields : object) :
  primary t ∉ keys updateFields ->
  (forall key c, key ∈ unique t -> c ∈ key -> c ∉ keys updateFields) ->
  forall targets current,
    consistent_rows t current ->
    Forall (fun r => r ∈ current) targets ->
    NoDup (rowid <$> targets) ->
    update_each t updateFields targets current
    = Some ((fun q => if bool_decide (rowid q ∈ rowid <$> targets)
                      then default q (updated_row t updateFields q)
                      else q) <$> current).
Proof.
  intros Hkey Hunique.
  induction targets as [|r targets IH]; intros current Hc Hin Hnodup.
  { cbn [update_each]. f_equal. symmetry.
    rewrite <- (list_fmap_id current) at 2. apply list_fmap_ext.
    intros i q _. rewrite bool_decide_eq_false_2; [done|].
    cbn. apply not_elem_of_nil. }
  cbn [update_each].
  destruct (updated_row_sets t updateFields r Hkey) as (r' & Hnew & Hid & _).
  rewrite Hnew.
  apply Forall_cons in Hin as [Hr Hin]. cbn in Hnodup.
  apply NoDup_cons in Hnodup as [Hfresh Hnodup].
  assert (Hclash : existsb (replaced_by t r')
                     (base.filter (fun q => rowid q <> rowid r) current)
                   = false).
  { destruct (existsb _ _) eqn:Hex; [|done]. exfalso.
    apply existsb_exists in Hex as (q & Hq & Hrep).
    apply list_elem_of_In, list_elem_of_filter in Hq as [Hne Hq].
    unfold replaced_by in Hrep. apply orb_true_iff in Hrep as [Hrep|Hrep].
    { apply bool_decide_eq_true in Hrep. congruence. }
    apply existsb_exists in Hrep as (key & Hkey_in & Hcollide).
    apply list_elem_of_In in Hkey_in.
    destruct Hc as [_ Hfree].
    assert (Hold : existsb (collide_on t q r) (unique t) = true);
      [|by rewrite (Hfree q r Hq Hr Hne) in Hold].
    apply existsb_exists. exists key. split; [by apply list_elem_of_In|].
    unfold collide_on in *. rewrite forallb_forall in Hcollide.
    apply forallb_forall. intros c Hc_in.
    specialize (Hcollide c Hc_in).
    apply bool_decide_eq_true in Hcollide as [Hnn Heq].
    apply bool_decide_eq_true.
    destruct (updated_row_other t updateFields r r' c Hkey
                (Hunique key c Hkey_in ltac:(by apply list_elem_of_In))
                Hnew) as [Hsame|Hnull]; [|done].
    by rewrite <- Hsame. }
  rewrite Hclash.
  assert (Hreplace := insert_row_replaces r r' current (proj1 Hc) Hr Hid).
  rewrite IH; [| | |done].
  - f_equal. rewrite Hreplace, <- list_fmap_compose.
    apply list_fmap_ext. intros i q Hq%list_elem_of_lookup_2. cbn.
    destruct (decide (rowid q = rowid r)) as [Hq_r|Hq_r].
    + assert (q = r) as -> by (by eapply sorted_rowid_inj; [apply Hc|..]).
      rewrite !(bool_decide_eq_true_2 (rowid r = rowid r)) by done.
      rewrite (bool_decide_eq_true_2 (rowid r ∈ _ :: _))
        by apply list_elem_of_here.
      rewrite Hid, bool_decide_eq_false_2 by done. by rewrite Hnew.
    + rewrite (bool_decide_eq_false_2 (rowid q = rowid r)) by done.
      apply (f_equal (fun b : bool =>
                        if b then default q (updated_row t updateFields q)
                        else q)).
      apply bool_decide_ext. rewrite elem_of_cons. tauto.
  - apply insert_consistent; [by apply filter_consistent|].
    intros q Hq. by eapply existsb_false_elem_of.
  - apply Forall_forall. intros q Hq.
    apply DbFacts.elem_of_insert_row. right. apply list_elem_of_filter.
    split; [|by eapply Forall_forall in Hin].
    intros Heq. apply Hfresh. rewrite <- Heq.
    apply list_elem_of_fmap. by exists q.
Qed.

(** X9.  [updateTable] with clauses that compile, on a table whose
    constraints hold, when it sets neither the key nor a column of a
    [UNIQUE] constraint: every row that satisfies the filter has the new
    values in the columns that are set and is otherwise as it was, every
    other row is as it was, the rows are in the order they were in, and the
    other tables are as they were.  With no field to set or an empty filter
    the statement is refused and nothing changes. *)
Theorem updateTable_sets_the_filtered_rows (tableName : string)
    (updateFields filter : object) (s : db) (t : table) :
  tableName <> "" ->
  s !! tableName = Some t ->
  consistent t ->
  compiles t updateFields = true ->
  compiles t filter = true ->
  primary t ∉ keys updateFields ->
  (forall key c, key ∈ unique t -> c ∈ key -> c ∉ keys updateFields) ->
  let s' := updateTable tableName updateFields filter s in
  (exists t',
     s' !! tableName = Some t'
     /\ Forall2 (fun r r' => if where_holds t filter r
                             then sets t updateFields r r'
                             else r' = r)
          (rows t) (rows t'))
  /\ (forall name, name <> tableName -> s' !! name = s !! name)
  /\ updateTable tableName [] filter s = s
  /\ updateTable tableName updateFields [] s = s.
Proof.
  intros Hname Ht Hc Hset Hfilter Hkey Hunique. cbn zeta.
  assert (Hrun : updateTable tableName updateFields filter s
                 = <[tableName :=
                       {| columns := columns t; primary := primary t;
                          autoincrement := autoincrement t;
                          unique := unique t;
                          rows := (fun q =>
                                     if where_holds t filter q
                                     then default q
                                            (updated_row t updateFields q)
                                     else q) <$> rows t;
                          sequence := sequence t |}]> s).
  { unfold updateTable. rewrite decide_False by done.
    rewrite Ht, Hset, Hfilter. cbn [andb].
    rewrite (update_each_sets t updateFields Hkey Hunique); [|done| |].
    - do 2 f_equal. apply list_fmap_ext. intros i q Hq%list_elem_of_lookup_2.
      destruct (where_holds t filter q) eqn:Hq_holds.
      + rewrite bool_decide_eq_true_2; [done|].
        apply list_elem_of_fmap. exists q. split; [done|].
        by apply list_elem_of_filter.
      + rewrite bool_decide_eq_false_2; [done|].
        intros (q0 & Hid & [Hq0 Hin]%list_elem_of_filter)%list_elem_of_fmap.
        assert (q = q0) as <- by (by eapply sorted_rowid_inj; [apply Hc|..]).
        congruence.
    - apply Forall_forall. by intros q [_ Hq]%list_elem_of_filter.
    - apply NoDup_fmap_2_strong; [|apply NoDup_filter, sorted_NoDup, Hc].
      intros q q' [_ Hq]%list_elem_of_filter [_ Hq']%list_elem_of_filter Heq.
      by eapply sorted_rowid_inj; [apply Hc|..]. }
  split; [|split; [|split]].
  - rewrite Hrun. eexists. rewrite lookup_insert_eq. split; [done|].
    cbn [rows].
    apply Forall2_fmap_r, Forall_Forall2_diag, Forall_forall.
    intros q Hq. unfold compose.
    destruct (updated_row_sets t updateFields q Hkey) as (q' & Hnew & Hsets).
    destruct (where_holds t filter q); [by rewrite Hnew|done].
  - intros name Hne. rewrite Hrun. by rewrite lookup_insert_ne.
  - unfold updateTable. rewrite decide_False, Ht by done. reflexivity.
  - unfold updateTable. rewrite decide_False, Ht by done.
    by rewrite andb_false_r.
Qed.

End Store.

Import Js Db Index Spec Examples Samples.

Lemma writes_keep_the_constraints_witness :
  all_consistent stocked
  /\ all_consistent
       (@updateTable plain_host "deals_products" [("price", PNum 90)]
          [("deal_id", PNum 1)] stocked).
Proof.
  assert (Hempty : all_consistent (∅ : db)).
  { intros name t Hlookup. by rewrite lookup_empty in Hlookup. }
  pose proof (@writes_keep_the_constraints plain_host ∅ Hempty)
    as (Hcreated & _).
  pose proof (@writes_keep_the_constraints plain_host _ Hcreated)
    as (_ & Hfirst & _).
  specialize (Hfirst "deals"
                (deal_record (PNum 1) (PStr "Order 1") (PNum 68) (PNum 616)
                   (PStr "2024-05-01"))).
  pose proof (@writes_keep_the_constraints plain_host _ Hfirst)
    as (_ & Hsecond & _).
  specialize (Hsecond "deals"
                (deal_record (PNum 2) (PStr "Order 2") (PNum 68) (PNum 616)
                   (PStr "2024-05-02"))).
  pose proof (@writes_keep_the_constraints plain_host two_deals Hsecond)
    as (_ & _ & Hrows & _).
  specialize (Hrows "deals_products"
                [line_item (PNum 1) (PNum 31) (PStr "Chair") (PNum 100)
                   (PNum 5);
                 line_item (PNum 1) (PNum 32) (PStr "Table") (PNum 250)
                   (PNum 10);
                 line_item (PNum 5) (PNum 31) (PStr "Chair") (PNum 100)
                   (PNum 5)]).
  split; [exact Hrows|].
  pose proof (@writes_keep_the_constraints plain_host stocked Hrows)
    as (_ & _ & _ & _ & Hupdate).
  apply (Hupdate "deals_products" [("price", PNum 90)] [("deal_id", PNum 1)]
           (table_of "deals_products" stocked)); reflexivity.
Defined.

Lemma getByFilter_restricts_getAll_witness :
  @getByFilter plain_host rowid_order "deals"
    [("id", PNum 1); ("title", PNull)] two_deals
  = Ok [].
Proof.
  destruct (@getByFilter_restricts_getAll plain_host rowid_order "deals"
              [("id", PNum 1); ("title", PNull)] two_deals
              (table_of "deals" two_deals))
    as (all & found & _ & Hfound & _ & Hnull); [done|reflexivity|reflexivity|].
  rewrite Hfound. f_equal. apply (Hnull "title" PNull); [|by left].
  apply elem_of_cons. right. apply list_elem_of_singleton. reflexivity.
Defined.

Lemma inserted_deal_is_found_by_id_witness :
  @getByFilter plain_host rowid_order "deals" [("id", PNum 7)]
    (@insertInTable plain_host "deals"
       (deal_record (PNum 7) (PStr "Order 7") (PNum 68) (PNum 616)
          (PStr "2024-05-01"))
       (createTables ∅))
  = Ok [[("id", PNum 7); ("title", PStr "Order 7");
         ("category_id", PNum 68); ("price_type", PNum 616);
         ("date_create", PStr "2024-05-01")]].
Proof.
  apply (@inserted_deal_is_found_by_id plain_host rowid_order
           (createTables ∅) [] 0 7); reflexivity.
Defined.

Lemma deleted_rows_are_the_filtered_rows_witness :
  @getByFilter plain_host rowid_order "deals" [("id", PNum 1)]
    (@deleteFromTable plain_host "deals" [("id", PNum 1)] two_deals)
  = Ok [].
Proof.
  apply (@deleted_rows_are_the_filtered_rows plain_host rowid_order "deals"
           [("id", PNum 1)] two_deals (table_of "deals" two_deals));
    [done|reflexivity|reflexivity].
Defined.

Lemma updateTable_sets_the_filtered_rows_witness :
  getAll "deals"
    (@updateTable plain_host "deals" [("title", PStr "Order")]
       [("id", PNum 1)] two_deals)
  = Ok [[("id", PNum 1); ("title", PStr "Order");
         ("category_id", PNum 68); ("price_type", PNum 616);
         ("date_create", PStr "2024-05-01")];
        [("id", PNum 2); ("title", PStr "Order 2");
         ("category_id", PNum 68); ("price_type", PNum 616);
         ("date_create", PStr "2024-05-02")]]
  /\ exists t',
       @updateTable plain_host "deals" [("title", PStr "Order")]
         [("id", PNum 1)] two_deals !! "deals" = Some t'
       /\ Forall2 (fun r r' =>
                     if @where_holds plain_host (table_of "deals" two_deals)
                          [("id", PNum 1)] r
                     then @sets plain_host (table_of "deals" two_deals)
                            [("title", PStr "Order")] r r'
                     else r' = r)
            (rows (table_of "deals" two_deals)) (rows t').
Proof.
  split; [reflexivity|].
  assert (Hconsistent : consistent (table_of "deals" two_deals)).
  { split.
    - vm_compute. repeat constructor.
    - intros r q _ _ _. reflexivity. }
  apply (@updateTable_sets_the_filtered_rows plain_host "deals"
           [("title", PStr "Order")] [("id", PNum 1)] two_deals
           (table_of "deals" two_deals));
    [done|reflexivity|exact Hconsistent|reflexivity|reflexivity| |].
  - intros Hin. apply list_elem_of_singleton in Hin. discriminate Hin.
  - intros key c Hkey. change (key ∈ []) in Hkey.
    by apply elem_of_nil in Hkey.
Defined.

End StoreFacts.

(** ** The logger *)

Module LoggerFacts.
Import Js Index Logger IndexReads ClockSpec.

Lemma string_app_length (s t : string) :
  String.length (s +:+ t) = (String.length s + String.length t)%nat.
Proof. induction s as [|c s IH]; simpl; [done|]. by rewrite IH. Qed.

(** Two texts with equally long heads are equal only part by part. *)
Lemma string_app_inj_head (s1 s2 t1 t2 : string) :
  String.length s1 = String.length s2 ->
  s1 +:+ t1 = s2 +:+ t2 -> s1 = s2 /\ t1 = t2.
Proof.
  revert s2. induction s1 as [|c s1 IH]; intros [|c' s2] Hlen Heq;
    simpl in *; try done.
  injection Heq as -> Heq. destruct (IH s2 ltac:(lia) Heq) as [-> ->]. done.
Qed.

Lemma string_app_inj_tail (s1 s2 t1 t2 : string) :
  String.length t1 = String.length t2 ->
  s1 +:+ t1 = s2 +:+ t2 -> s1 = s2 /\ t1 = t2.
Proof.
  intros Hlen Heq. apply string_app_inj_head; [|done].
  apply (f_equal String.length) in Heq. rewrite !string_app_length in Heq.
  lia.
Qed.

(** Below 100, padding to two characters gives two characters and loses
    nothing. *)
Lemma two_digits (a : Z) :
  0 <= a < 100 -> String.length (padStart (String_of a) 2) = 2%nat.
Proof.
  intros Ha.
  assert (Hall : Forall (fun a => String.length (padStart (String_of a) 2)
                                  = 2%nat) (seqZ 0 100)).
  { apply (bool_decide_unpack _). vm_compute. exact I. }
  eapply Forall_forall in Hall; [exact Hall|]. apply elem_of_seqZ. lia.
Qed.

Lemma two_digits_inj (a b : Z) :
  0 <= a < 100 -> 0 <= b < 100 ->
  padStart (String_of a) 2 = padStart (String_of b) 2 -> a = b.
Proof.
  intros Ha Hb Heq.
  assert (Hnodup : NoDup ((fun a => padStart (String_of a) 2) <$> seqZ 0 100)).
  { apply (bool_decide_unpack _). vm_compute. exact I. }
  assert (Hin : forall x, 0 <= x < 100 ->
            exists i, seqZ 0 100 !! i = Some x).
  { intros x Hx. apply list_elem_of_lookup, elem_of_seqZ. lia. }
  destruct (Hin a Ha) as [i Hi], (Hin b Hb) as [j Hj].
  assert (i = j).
  { eapply NoDup_lookup; [exact Hnodup| |];
      rewrite list_lookup_fmap;
      [by rewrite Hi|rewrite Hj; simpl; by rewrite Heq]. }
  subst. congruence.
Qed.

Lemma string_app_empty_r (s : string) : s +:+ "" = s.
Proof.
  induction s as [|c s IH]; [done|].
  change (String c (s +:+ "") = String c s). by f_equal.
Qed.

Lemma formatDate_inj (d d' : Date) :
  calendar d -> calendar d' ->
  formatDate d = formatDate d' -> same_day d d'.
Proof.
  intros (Hm & Hd & _) (Hm' & Hd' & _) Heq. unfold formatDate in Heq.
  cbn zeta in Heq.
  pose proof (two_digits (getMonth d + 1) ltac:(lia)) as Lm.
  pose proof (two_digits (getMonth d' + 1) ltac:(lia)) as Lm'.
  pose proof (two_digits (getDate d) ltac:(lia)) as Ld.
  pose proof (two_digits (getDate d') ltac:(lia)) as Ld'.
  apply string_app_inj_tail in Heq as [Hyear Heq].
  2:{ simpl. rewrite !string_app_length. simpl. lia. }
  apply string_app_inj_head in Heq as [_ Heq]; [|done].
  apply string_app_inj_head in Heq as [Hmonth Heq]; [|lia].
  apply string_app_inj_head in Heq as [_ Hday]; [|done].
  apply two_digits_inj in Hmonth; [|lia..].
  apply two_digits_inj in Hday; [|lia..].
  unfold String_of in Hyear. apply (inj pretty) in Hyear.
  unfold same_day. lia.
Qed.

Lemma backlog_file_name_inj (d d' : Date) :
  calendar d -> calendar d' ->
  backlog_file_name d = backlog_file_name d' -> same_minute d d'.
Proof.
  intros (Hm & Hd & Hh & Hn) (Hm' & Hd' & Hh' & Hn') Heq.
  unfold backlog_file_name in Heq. cbn zeta in Heq.
  pose proof (two_digits (getMonth d + 1) ltac:(lia)) as Lm.
  pose proof (two_digits (getMonth d' + 1) ltac:(lia)) as Lm'.
  pose proof (two_digits (getDate d) ltac:(lia)) as Ld.
  pose proof (two_digits (getDate d') ltac:(lia)) as Ld'.
  pose proof (two_digits (getHours d) ltac:(lia)) as Lh.
  pose proof (two_digits (getHours d') ltac:(lia)) as Lh'.
  pose proof (two_digits (getMinutes d) ltac:(lia)) as Ln.
  pose proof (two_digits (getMinutes d') ltac:(lia)) as Ln'.
  apply string_app_inj_head in Heq as [Hday Heq]; [|lia].
  apply string_app_inj_head in Heq as [_ Heq]; [|done].
  apply string_app_inj_head in Heq as [Hmonth Heq]; [|lia].
  apply string_app_inj_head in Heq as [_ Heq]; [|done].
  apply string_app_inj_tail in Heq as [Hyear Heq].
  2:{ simpl. rewrite !string_app_length. simpl. lia. }
  apply string_app_inj_head in Heq as [_ Heq]; [|done].
  apply string_app_inj_head in Heq as [Hhours Heq]; [|lia].
  apply string_app_inj_head in Heq as [_ Heq]; [|done].
  apply string_app_inj_head in Heq as [Hminutes _]; [|lia].
  apply two_digits_inj in Hday; [|lia..].
  apply two_digits_inj in Hmonth; [|lia..].
  apply two_digits_inj in Hhours; [|lia..].
  apply two_digits_inj in Hminutes; [|lia..].
  unfold String_of in Hyear. apply (inj pretty) in Hyear.
  unfold same_minute, same_day. lia.
Qed.

(** X10.  [logMessage] only ever adds to the end of one file: every file
    that was there keeps what it held as the head of what it holds
    afterwards, the file of the message's type and day ends in the new
    entry, and every other file is as it was.  For one type, two valid
    dates name the same file exactly when they are the same calendar
    day. *)
Theorem logMessage_appends_to_the_file_of_the_day
    (type source detail currentTime : string) (now : Date) (files : logs) :
  calendar now ->
  let files' := logMessage type source detail currentTime now files in
  let path := (log_directory type, log_file_name type now) in
  (forall p old, files !! p = Some old ->
     exists added, files' !! p = Some (old +:+ added))
  /\ files' !! path
     = Some (default "" (files !! path)
             +:+ formattedMessage type currentTime source detail)
  /\ (forall p, p <> path -> files' !! p = files !! p)
  /\ (forall now', calendar now' ->
        log_file_name type now' = log_file_name type now
        <-> same_day now' now).
Proof.
  intros Hnow. cbn zeta. unfold logMessage.
  split; [|split; [|split; [|intros now' Hnow'; split]]].
  - intros p old Hold.
    destruct (decide (p = (log_directory type, log_file_name type now)))
      as [->|Hne].
    + rewrite lookup_insert_eq, Hold. by eexists.
    + rewrite lookup_insert_ne by done. exists "".
      rewrite Hold. f_equal. symmetry. apply string_app_empty_r.
  - by rewrite lookup_insert_eq.
  - intros p Hne. by rewrite lookup_insert_ne.
  - unfold log_file_name. intros Heq.
    apply string_app_inj_head in Heq as [_ Heq]; [|done].
    apply string_app_inj_head in Heq as [_ Heq]; [|done].
    apply string_app_inj_tail in Heq as [Heq _]; [|done].
    by apply formatDate_inj.
  - intros (Hy & Hm & Hd). unfold log_file_name, formatDate.
    by rewrite Hy, Hm, Hd.
Qed.

(** X11.  [write_backlog] sends no answer, and the file it writes is named
    after the minute of the call: a second call within the same minute
    leaves the directory as if the first had never been made, and calls in
    different minutes each leave their own file. *)
Theorem write_backlog_keeps_one_file_per_minute
    (now now' : Date) (json json' : string) (files : backlogs) :
  calendar now -> calendar now' ->
  let first := write_backlog now json files in
  let second := write_backlog now' json' first.2 in
  first.1 = Unanswered /\ second.1 = Unanswered
  /\ second.2 !! backlog_file_name now' = Some json'
  /\ (same_minute now now' -> second.2 = (write_backlog now' json' files).2)
  /\ (~ same_minute now now' ->
        second.2 !! backlog_file_name now = Some json)
  /\ (forall name, name <> backlog_file_name now ->
        name <> backlog_file_name now' -> second.2 !! name = files !! name).
Proof.
  intros Hnow Hnow'. cbn zeta. unfold write_backlog, writeDataToJsonFile.
  cbn [fst snd]. split; [done|]. split; [done|].
  split; [by rewrite lookup_insert_eq|]. split; [|split].
  - intros (Hday & Hh & Hm). destruct Hday as (Hy & Hmo & Hd).
    assert (Hname : backlog_file_name now = backlog_file_name now').
    { unfold backlog_file_name. by rewrite Hy, Hmo, Hd, Hh, Hm. }
    rewrite Hname. apply insert_insert_eq.
  - intros Hdiff. rewrite lookup_insert_ne, lookup_insert_eq; [done|].
    intros Heq. apply Hdiff. by apply backlog_file_name_inj.
  - intros name Hne Hne'. by rewrite !lookup_insert_ne.
Qed.

Import Samples.

Lemma logMessage_appends_to_the_file_of_the_day_witness :
  logMessage "error" "/add_deal_handler/" "No deal id provided"
    "5/1/2024, 12:30:00 PM" half_past_twelve ∅
  !! ("error", "error_2024-05-01.log")
  = Some ("5/1/2024, 12:30:00 PM - Source: /add_deal_handler/" +:+ newline
          +:+ "Error: No deal id provided" +:+ newline +:+ newline)
  /\ log_file_name "error" a_minute_later
     = log_file_name "error" half_past_twelve.
Proof.
  assert (Hcalendar : calendar half_past_twelve /\ calendar a_minute_later)
    by (unfold calendar; simpl; lia).
  destruct Hcalendar as [Hfirst Hsecond].
  destruct (logMessage_appends_to_the_file_of_the_day "error"
              "/add_deal_handler/" "No deal id provided"
              "5/1/2024, 12:30:00 PM" half_past_twelve ∅ Hfirst)
    as (_ & Hentry & _ & Hday).
  split; [exact Hentry|].
  apply (Hday a_minute_later Hsecond). repeat split.
Defined.

Lemma write_backlog_keeps_one_file_per_minute_witness :
  (write_backlog a_minute_later "[2]"
     (write_backlog half_past_twelve "[1]" ∅).2).2
  !! "01_05_2024_12_30.json"
  = Some "[1]".
Proof.
  assert (Hcalendar : calendar half_past_twelve /\ calendar a_minute_later)
    by (unfold calendar; simpl; lia).
  destruct Hcalendar as [Hfirst Hsecond].
  apply (write_backlog_keeps_one_file_per_minute half_past_twelve
           a_minute_later "[1]" "[2]" ∅ Hfirst Hsecond).
  intros (_ & _ & Hminutes). discriminate Hminutes.
Defined.

End LoggerFacts.

(** ** The listing and the handlers that feed it *)

Module HandlerFacts.
Import Js DealsService Db Index Spec IndexReads ListingSpec.

Section Handlers.
Context `{Host}.

Lemma row_object_deal (td : table) (d : row) :
  columns td = columns deals_schema -> primary td = "id" ->
  row_object td d
  = [("id", PNum (rowid d));
     ("title", unbind (cell_of (cells d) "title"));
     ("category_id", unbind (cell_of (cells d) "category_id"));
     ("price_type", unbind (cell_of (cells d) "price_type"));
     ("date_create", unbind (cell_of (cells d) "date_create"))].
Proof.
  intros Hcols Hprimary. unfold row_object, cell.
  rewrite Hcols, Hprimary. reflexivity.
Qed.

Lemma row_object_product (tp : table) (p : row) :
  columns tp = columns deals_products_schema -> primary tp = "id" ->
  row_object tp p
  = [("id", PNum (rowid p));
     ("deal_id", unbind (cell_of (cells p) "deal_id"));
     ("product_id", unbind (cell_of (cells p) "product_id"));
     ("product_name", unbind (cell_of (cells p) "product_name"));
     ("price", unbind (cell_of (cells p) "price"));
     ("discount", unbind (cell_of (cells p) "discount"))].
Proof.
  intros Hcols Hprimary. unfold row_object, cell.
  rewrite Hcols, Hprimary. reflexivity.
Qed.

Lemma productrows_of_row (tp : table) (z : Z) :
  columns tp = columns deals_products_schema -> primary tp = "id" ->
  productrow_of
    <$> base.filter (fun dp => strict_eq (get dp "deal_id") (PNum z) = true)
          (row_object tp <$> rows tp)
  = products_of_deal tp z.
Proof.
  intros Hcols Hprimary. unfold products_of_deal.
  assert (Hkey : forall p, get (row_object tp p) "deal_id"
                           = unbind (cell_of (cells p) "deal_id"))
    by (intros p; by rewrite row_object_product).
  assert (Hshown : forall p, productrow_of (row_object tp p) = product_of p)
    by (intros p; by rewrite row_object_product).
  induction (rows tp) as [|p ps IH]; [done|].
  rewrite fmap_cons, !filter_cons, Hkey.
  destruct (decide (cell_of (cells p) "deal_id" = SInt z)) as [Hz|Hz].
  - rewrite decide_True.
    + by rewrite !fmap_cons, IH, Hshown.
    + unfold strict_eq. apply bool_decide_eq_true_2. by rewrite Hz.
  - rewrite decide_False; [done|].
    unfold strict_eq. intros Heq%bool_decide_eq_true_1. apply Hz.
    destruct (cell_of (cells p) "deal_id"); simpl in Heq; congruence.
Qed.

Lemma get_deals_with_productrows_rows (s : db) (td tp : table) :
  s !! "deals" = Some td -> s !! "deals_products" = Some tp ->
  columns td = columns deals_schema -> primary td = "id" ->
  columns tp = columns deals_products_schema -> primary tp = "id" ->
  get_deals_with_productrows s = Listed 200 (entry_of_row tp <$> rows td).
Proof.
  intros Hd Hp Hcd Hpd Hcp Hpp. unfold get_deals_with_productrows, getAll.
  rewrite !decide_False by done. rewrite Hd, Hp. f_equal.
  rewrite <- list_fmap_compose. apply list_fmap_ext. intros _ d _.
  unfold compose, entry_of. rewrite row_object_deal by done.
  change (get _ "id") with (PNum (rowid d)).
  change (get _ "date_create")
    with (unbind (cell_of (cells d) "date_create")).
  change (get _ "title") with (unbind (cell_of (cells d) "title")).
  unfold entry_of_row. f_equal. by apply productrows_of_row.
Qed.

(** X12.  On the two tables of the schema, [get_deals_with_productrows]
    answers 200 with one entry for each row of [deals], in rowid order,
    whose product rows are the rows of [deals_products] that hold the
    deal's id in [deal_id]; a row of [deals_products] whose [deal_id] is
    [NULL], or the id of no stored deal, is in no entry.  When either table
    is missing the answer is the 500 of the [catch] block. *)
Theorem get_deals_with_productrows_joins_on_the_deal_id (s : db)
    (td tp : table) :
  s !! "deals" = Some td -> s !! "deals_products" = Some tp ->
  same_schema td deals_schema -> same_schema tp deals_products_schema ->
  get_deals_with_productrows s = Listed 200 (entry_of_row tp <$> rows td)
  /\ (forall e o, e ∈ entry_of_row tp <$> rows td -> o ∈ productrows e ->
        exists d p, d ∈ rows td /\ p ∈ rows tp /\ deal_id e = PNum (rowid d)
                    /\ cell_of (cells p) "deal_id" = SInt (rowid d)
                    /\ o = product_of p)
  /\ get_deals_with_productrows (delete "deals" s) = NotListed failed
  /\ get_deals_with_productrows (delete "deals_products" s)
     = NotListed failed.
Proof.
  intros Hd Hp (Hcd & Hpd & _) (Hcp & Hpp & _).
  split; [by apply (get_deals_with_productrows_rows s td tp)|].
  split; [|split].
  - intros e o (d & -> & Hin)%list_elem_of_fmap Ho.
    cbn [productrows entry_of_row] in Ho. unfold products_of_deal in Ho.
    apply list_elem_of_fmap in Ho as (p & -> & Hpin).
    apply list_elem_of_filter in Hpin as [Hkey Hpin].
    by exists d, p.
  - unfold get_deals_with_productrows, getAll.
    rewrite decide_False by done. by rewrite lookup_delete_eq.
  - unfold get_deals_with_productrows, getAll.
    rewrite !decide_False by done.
    rewrite lookup_delete_ne by done. rewrite Hd.
    by rewrite lookup_delete_eq.
Qed.

(** The loop over the stored deals, when the remote has product rows for
    each of them. *)
Lemma collect_records_all (bx : Bitrix) (fetched : prim -> list object)
    (deals : list object) :
  (forall deal, deal ∈ deals ->
     getDealProductRows bx (get deal "id")
     = Resolved (Some (fetched (get deal "id")))) ->
  forall records,
    collect_records bx deals records
    = Some (Ok (records
                ++ mjoin ((fun deal =>
                             product_record deal <$> fetched (get deal "id"))
                          <$> deals))).
Proof.
  induction deals as [|deal deals IH]; intros Hall records.
  - cbn. by rewrite app_nil_r.
  - cbn [collect_records]. rewrite Hall by (by left).
    rewrite IH by (intros d Hd; apply Hall; by right).
    rewrite fmap_cons. cbn [mjoin list_join]. by rewrite app_assoc.
Qed.

(** X14.  When the remote has product rows for every deal of [deals],
    [get_deals_product_rows_from_bx_insert_in_db] answers 200 with the
    stored deals and their number, and the store is what one
    [insertMultipleInTable] into [deals_products] makes it, of the records
    built from the product rows of each deal, deal after deal in the order
    of [getAll]; with no deal stored the store is left as it was. *)
Theorem get_deals_product_rows_stores_the_rows_of_every_deal
    (env : environment) (link : string) (s : db) (td : table)
    (fetched : prim -> list object) :
  decryptText env = Ok link ->
  s !! "deals" = Some td ->
  (forall d, d ∈ rows td ->
     getDealProductRows (connect env link) (get (row_object td d) "id")
     = Resolved (Some (fetched (get (row_object td d) "id")))) ->
  let deals := row_object td <$> rows td in
  let records :=
    mjoin ((fun deal => product_record deal <$> fetched (get deal "id"))
           <$> deals) in
  get_deals_product_rows_from_bx_insert_in_db env s
  = (Answered (Response 200 (ProductRowsAdded (length deals) deals)),
     insertMultipleInTable "deals_products" records s)
  /\ (rows td = [] ->
        (get_deals_product_rows_from_bx_insert_in_db env s).2 = s).
Proof.
  intros Hlink Hd Hall. cbn zeta.
  assert (Hrun : get_deals_product_rows_from_bx_insert_in_db env s
                 = (Answered
                      (Response 200
                         (ProductRowsAdded (length (row_object td <$> rows td))
                            (row_object td <$> rows td))),
                    insertMultipleInTable "deals_products"
                      (mjoin ((fun deal =>
                                 product_record deal
                                   <$> fetched (get deal "id"))
                              <$> (row_object td <$> rows td))) s)).
  { unfold get_deals_product_rows_from_bx_insert_in_db, getAll.
    rewrite Hlink, decide_False, Hd by done.
    rewrite (collect_records_all _ fetched).
    - reflexivity.
    - intros deal (d & -> & Hin)%list_elem_of_fmap. by apply Hall. }
  split; [exact Hrun|].
  intros Hempty. rewrite Hrun, Hempty. cbn [snd fmap list_fmap mjoin].
  unfold insertMultipleInTable. by destruct (decide _).
Qed.

End Handlers.

Import Js Db Index Spec Examples Samples.

Lemma get_deals_with_productrows_joins_on_the_deal_id_witness :
  get_deals_with_productrows stocked
  = Listed 200
      [Entry (PNum 1) (PStr "2024-05-01") (PStr "Order 1")
         [[("product_id", PNum 31); ("product_name", PStr "Chair");
           ("price", PNum 100); ("discount", PNum 5)];
          [("product_id", PNum 32); ("product_name", PStr "Table");
           ("price", PNum 250); ("discount", PNum 10)]];
       Entry (PNum 2) (PStr "2024-05-02") (PStr "Order 2") []].
Proof.
  apply (get_deals_with_productrows_joins_on_the_deal_id stocked
           (table_of "deals" stocked) (table_of "deals_products" stocked));
    [reflexivity|reflexivity|repeat split..].
Defined.

Lemma get_deals_product_rows_stores_the_rows_of_every_deal_witness :
  @get_deals_product_rows_from_bx_insert_in_db plain_host
    (with_remote (crm wrong_price_type)) two_deals
  = (Answered
       (Response 200
          (ProductRowsAdded 2
             (row_object (table_of "deals" two_deals)
                <$> rows (table_of "deals" two_deals)))),
     @insertMultipleInTable plain_host "deals_products"
       [line_item (PNum 1) (PNum 31) (PStr "Chair") (PNum 100) (PNum 5);
        line_item (PNum 2) (PNum 31) (PStr "Chair") (PNum 100) (PNum 5)]
       two_deals).
Proof.
  apply (@get_deals_product_rows_stores_the_rows_of_every_deal plain_host
           (with_remote (crm wrong_price_type))
           "https://example.bitrix/webhook" two_deals
           (table_of "deals" two_deals)
           (fun _ => [DealsService.productrow_of_remote one_product]));
    [reflexivity|reflexivity|].
  intros d _. reflexivity.
Defined.

End HandlerFacts.
